(** * websockets/connection.go: the per-connection duplex pump

    A shallow embedding of the [websockets] package: the [Connection]
    facade ([Upgrade], [Close], [IsClosed], [SendBinary]) and its two pumps
    ([readPump], [writePump]), over a small model of Go channels, [select],
    [sync.Once] and [defer].

    Conventions.
    - A goroutine's effects are threaded through a [World]: the
      [Connection], the frames of the two pumps, the clock read by
      [time.Now] and a chronological [trace] of the calls made on the
      transport, on the channels and on the logger.
    - A computation either returns, panics or blocks ([Res]).
    - Whatever Go leaves to the scheduler or to the peer is an explicit
      argument: the poll order of a [select] ([pick]), the outcome of a
      fallible transport call ([fail]), the frame a read yields. *)

From Stdlib Require Import ZArith List Bool Lia Strings.String Strings.Byte Arith.
Import ListNotations.

Set Implicit Arguments.
Local Open Scope list_scope.

(** ** Constants *)

Definition Second : Z := 1000000000.          (* time.Duration counts nanoseconds *)

Definition writeWait : Z := 5 * Second.
Definition pongWait : Z := 10 * Second.
Definition pingPeriod : Z := Z.quot (pongWait * 9) 10.
Definition maxMessageSize : Z := 8192.

(** gorilla/websocket message types and close codes (RFC 6455). *)
Definition BinaryMessage : Z := 2.
Definition CloseMessage : Z := 8.
Definition PingMessage : Z := 9.
Definition CloseNormalClosure : Z := 1000.
Definition CloseGoingAway : Z := 1001.
Definition CloseAbnormalClosure : Z := 1006.

Definition bytes := list byte.

(** ** Errors *)

Inductive error : Type :=
| Errorf (msg : string)                      (* fmt.Errorf(msg) *)
| CloseError (code : Z) (text : string)      (* *ws.CloseError *)
| TransportError (msg : string).             (* any other error of the transport *)

Definition ErrorConnectionClosed : error := Errorf "Connection closed"%string.
Definition ErrorBufferFull : error := Errorf "Send buffer full"%string.

(** ** Go channels *)

Module Chan.

Record t (A : Type) : Type := mk { buf : list A; cap : nat; closed : bool }.

Inductive result (R : Type) : Type :=
| Done (r : R)
| WouldBlock
| Panics (msg : string).
Arguments WouldBlock {R}.
Arguments Panics {R} msg.

Section Ops.
Context {A : Type}.

Definition make (n : nat) : t A := mk [] n false.

Definition len (ch : t A) : nat := List.length (buf ch).

(** [ch <- v]. A send on a closed channel proceeds by panicking.  A
    receiver parked on an empty buffered channel is served through the
    buffer, which is then not full. *)
Definition send (ch : t A) (v : A) : result (t A) :=
  if closed ch then Panics "send on closed channel"%string
  else if len ch <? cap ch then Done (mk (buf ch ++ [v]) (cap ch) false)
  else WouldBlock.

(** [v, ok := <-ch]. A closed channel is drained first, then yields the
    zero value with [ok = false]. *)
Definition recv (zero : A) (ch : t A) : result (A * bool * t A) :=
  match buf ch with
  | v :: rest => Done (v, true, mk rest (cap ch) (closed ch))
  | [] => if closed ch then Done (zero, false, ch) else WouldBlock
  end.

(** [close(ch)]. *)
Definition close (ch : t A) : result (t A) :=
  if closed ch then Panics "close of closed channel"%string
  else Done (mk (buf ch) (cap ch) true).

(** Whether a communication can proceed, as [select] asks it. *)
Definition send_ready (ch : t A) : bool := closed ch || (len ch <? cap ch).
Definition recv_ready (ch : t A) : bool :=
  match buf ch with [] => closed ch | _ :: _ => true end.
End Ops.

End Chan.

(** ** [select]

    [ready] lists, in source order, whether each communication can proceed.
    Among those that can, one is chosen; the pseudo-random poll order of the
    runtime is the argument [pick].  [None]: no case is ready, so the
    [default] runs, or the goroutine parks when there is none. *)

Fixpoint ready_cases (i : nat) (ready : list bool) : list nat :=
  match ready with
  | [] => []
  | true :: r => i :: ready_cases (S i) r
  | false :: r => ready_cases (S i) r
  end.

Definition select (pick : nat) (ready : list bool) : option nat :=
  match ready_cases 0 ready with
  | [] => None
  | i :: r => Some (nth (pick mod List.length (i :: r)) (i :: r) i)
  end.

(** ** The data model *)

(** The closure installed by [readPump] with [SetPongHandler]; gorilla's
    default handler does nothing. *)
Inductive PongHandler : Type :=
| defaultPongHandler
| resetReadDeadline.

(** The state of a [*ws.Conn] that this package sets. *)
Record Conn : Type := mkConn {
  readLimit : Z;
  readDeadline : option Z;
  writeDeadline : option Z;
  pongHandler : PongHandler
}.

(** [MessageHandler]: an opaque capability of the application, taken to
    return normally. *)
Inductive MessageHandler : Type := appHandler.

Record Connection : Type := mkConnection {
  conn : Conn;
  send : Chan.t bytes;
  handler : option MessageHandler;          (* None: nil *)
  closeOnce : bool;                         (* sync.Once: done *)
  closed : Chan.t unit
}.

(** Where [c.conn.Close()] is called from. *)
Inductive Site : Type := inClose | inWritePump.

Inductive Event : Type :=
| EvCloseSignal                              (* close(c.closed) *)
| EvCloseQueue                               (* close(c.send) *)
| EvConnClose (site : Site)                  (* c.conn.Close() *)
| EvSetReadLimit (n : Z)
| EvSetReadDeadline (t : Z)
| EvSetPongHandler
| EvSetWriteDeadline (t : Z)
| EvWriteMessage (ty : Z) (data : bytes)     (* c.conn.WriteMessage *)
| EvNextWriter (ty : Z)
| EvWrite (data : bytes)                     (* w.Write *)
| EvWriterClose                              (* w.Close *)
| EvTickerStop
| EvLogPrintf (e : error)
| EvHandler (data : bytes).                  (* c.handler(message) *)

(** [time.Ticker]: the channel [C] has room for one tick. *)
Record Ticker : Type := mkTicker { period : Z; C : Chan.t Z; stopped : bool }.

(** Control points of [writePump]. *)
Inductive WritePc : Type :=
| WIdle                                      (* not entered *)
| WSelect                                    (* at the select *)
| WLen                                       (* w.Write(message) done *)
| WDrain (n : nat)                           (* n iterations of the range loop left *)
| WReturned.

(** Control points of [readPump]. *)
Inductive ReadPc : Type :=
| RIdle
| RLoop                                      (* in c.conn.ReadMessage() *)
| RReturned.

Record World : Type := mkWorld {
  self : Connection;
  now : Z;                                   (* time.Now() *)
  trace : list Event;
  ticker : Ticker;                           (* local of writePump *)
  wpc : WritePc;
  rpc : ReadPc
}.

(** *** Field updates *)

Definition with_self (f : Connection -> Connection) (w : World) : World :=
  mkWorld (f (self w)) (now w) (trace w) (ticker w) (wpc w) (rpc w).
Definition with_conn (f : Conn -> Conn) (c : Connection) : Connection :=
  mkConnection (f (conn c)) (send c) (handler c) (closeOnce c) (closed c).
Definition set_send (ch : Chan.t bytes) (c : Connection) : Connection :=
  mkConnection (conn c) ch (handler c) (closeOnce c) (closed c).
Definition set_closed (ch : Chan.t unit) (c : Connection) : Connection :=
  mkConnection (conn c) (send c) (handler c) (closeOnce c) ch.
Definition set_closeOnce (b : bool) (c : Connection) : Connection :=
  mkConnection (conn c) (send c) (handler c) b (closed c).
Definition set_readLimit (n : Z) (t : Conn) : Conn :=
  mkConn n (readDeadline t) (writeDeadline t) (pongHandler t).
Definition set_readDeadline (d : Z) (t : Conn) : Conn :=
  mkConn (readLimit t) (Some d) (writeDeadline t) (pongHandler t).
Definition set_writeDeadline (d : Z) (t : Conn) : Conn :=
  mkConn (readLimit t) (readDeadline t) (Some d) (pongHandler t).
Definition set_pongHandler (h : PongHandler) (t : Conn) : Conn :=
  mkConn (readLimit t) (readDeadline t) (writeDeadline t) h.
Definition log (e : Event) (w : World) : World :=
  mkWorld (self w) (now w) (trace w ++ [e]) (ticker w) (wpc w) (rpc w).
Definition set_now (t : Z) (w : World) : World :=
  mkWorld (self w) t (trace w) (ticker w) (wpc w) (rpc w).
Definition set_ticker (k : Ticker) (w : World) : World :=
  mkWorld (self w) (now w) (trace w) k (wpc w) (rpc w).
Definition set_wpc (p : WritePc) (w : World) : World :=
  mkWorld (self w) (now w) (trace w) (ticker w) p (rpc w).
Definition set_rpc (p : ReadPc) (w : World) : World :=
  mkWorld (self w) (now w) (trace w) (ticker w) (wpc w) p.

(** ** Computations: state, panics and blocking *)

Inductive Res (A : Type) : Type :=
| Ret (a : A) (w : World)
| Panic (msg : string) (w : World)
| Block (w : World).
Arguments Panic {A} msg w.
Arguments Block {A} w.

Definition M (A : Type) : Type := World -> Res A.

Definition ret {A} (a : A) : M A := fun w => Ret a w.

Definition bind {A B} (m : M A) (k : A -> M B) : M B :=
  fun w => match m w with
           | Ret a w' => k a w'
           | Panic msg w' => Panic msg w'
           | Block w' => Block w'
           end.

Notation "x <- m ;; k" := (bind m (fun x => k))
  (at level 61, m at next level, right associativity).
Notation "m ;;; k" := (bind m (fun _ => k))
  (at level 61, right associativity).

(** The world a computation leaves behind, however it ends. *)
Definition world_of {A} (r : Res A) : World :=
  match r with Ret _ w | Panic _ w | Block w => w end.

Definition emit (e : Event) : M unit := fun w => Ret tt (log e w).
Definition time_Now : M Z := fun w => Ret (now w) w.

(** Lifting a channel operation on one of the connection's channels. *)
Definition on_chan {A R} (get : Connection -> Chan.t A)
    (op : Chan.t A -> Chan.result R) (put : R -> Connection -> Connection) : M R :=
  fun w => match op (get (self w)) with
           | Chan.Done r => Ret r (with_self (put r) w)
           | Chan.WouldBlock => Block w
           | Chan.Panics msg => Panic msg w
           end.

(** ** Transport calls *)

Definition conn_Close (site : Site) : M unit := emit (EvConnClose site).

Definition conn_SetReadLimit (n : Z) : M unit :=
  fun w => Ret tt (log (EvSetReadLimit n) (with_self (with_conn (set_readLimit n)) w)).

Definition conn_SetReadDeadline (d : Z) : M unit :=
  fun w => Ret tt (log (EvSetReadDeadline d) (with_self (with_conn (set_readDeadline d)) w)).

Definition conn_SetWriteDeadline (d : Z) : M unit :=
  fun w => Ret tt (log (EvSetWriteDeadline d) (with_self (with_conn (set_writeDeadline d)) w)).

Definition conn_SetPongHandler (h : PongHandler) : M unit :=
  fun w => Ret tt (log EvSetPongHandler (with_self (with_conn (set_pongHandler h)) w)).

(** A fallible call: the transport decides ([fail]) whether it errs. *)
Definition fallible (e : Event) (fail : bool) : M (option error) :=
  fun w => Ret (if fail then Some (TransportError "write failed"%string) else None) (log e w).

Definition conn_WriteMessage (ty : Z) (data : bytes) (fail : bool) : M (option error) :=
  fallible (EvWriteMessage ty data) fail.
Definition conn_NextWriter (ty : Z) (fail : bool) : M (option error) :=
  fallible (EvNextWriter ty) fail.
Definition w_Write (data : bytes) : M unit := emit (EvWrite data).
Definition w_Close (fail : bool) : M (option error) := fallible EvWriterClose fail.

(** ** The facade *)

(** [sync.Once.Do] on [c.closeOnce]: [f] runs at most once, and the Once is
    done when [f] returns or panics. *)
Definition closeOnce_Do (f : M unit) : M unit :=
  fun w =>
    if closeOnce (self w) then Ret tt w
    else match f w with
         | Ret _ w' => Ret tt (with_self (set_closeOnce true) w')
         | Panic msg w' => Panic msg (with_self (set_closeOnce true) w')
         | Block w' => Block w'
         end.

Definition Close : M unit :=
  closeOnce_Do (
    on_chan closed Chan.close set_closed ;;; emit EvCloseSignal ;;;
    on_chan send Chan.close set_send ;;; emit EvCloseQueue ;;;
    conn_Close inClose).

Definition recv_closed : M unit :=
  on_chan closed (Chan.recv tt) (fun r => set_closed (snd r)) ;;; ret tt.

Definition IsClosed : M bool :=
  fun w =>
    match select 0 [Chan.recv_ready (closed (self w))] with
    | Some _ => (recv_closed ;;; ret true) w
    | None => ret false w
    end.

Definition SendBinary (pick : nat) (data : bytes) : M (option error) :=
  fun w =>
    match select pick [Chan.send_ready (send (self w));
                       Chan.recv_ready (closed (self w))] with
    | Some 0 =>
        (on_chan send (fun ch => Chan.send ch data) set_send ;;; ret None) w
    | Some _ =>
        (recv_closed ;;; ret (Some ErrorConnectionClosed)) w
    | None =>
        (* Buffer probably full *)
        (Close ;;; ret (Some ErrorBufferFull)) w
    end.

(** ** The environment: the runtime timer and the passing of time *)

Inductive Env : Type :=
| Tick                                       (* the ticker's period elapsed *)
| Elapse (d : N).                            (* d nanoseconds pass *)

(** A tick is sent on [ticker.C] without blocking: it is dropped when the
    previous one was not received, and a stopped ticker sends none. *)
Definition env_step (e : Env) (w : World) : World :=
  match e with
  | Tick =>
      if stopped (ticker w) then w
      else match Chan.send (C (ticker w)) (now w) with
           | Chan.Done ch => set_ticker (mkTicker (period (ticker w)) ch false) w
           | _ => w
           end
  | Elapse d => set_now (now w + Z.of_N d)%Z w
  end.

Definition time_NewTicker (d : Z) : M unit :=
  fun w => Ret tt (set_ticker (mkTicker d (Chan.make 1) false) w).

Definition ticker_Stop : M unit :=
  fun w => Ret tt (log EvTickerStop
                     (set_ticker (mkTicker (period (ticker w)) (C (ticker w)) true) w)).

Definition recv_tick : M unit :=
  fun w => match Chan.recv 0%Z (C (ticker w)) with
           | Chan.Done (_, _, ch) =>
               Ret tt (set_ticker (mkTicker (period (ticker w)) ch (stopped (ticker w))) w)
           | Chan.WouldBlock => Block w
           | Chan.Panics msg => Panic msg w
           end.

Definition recv_send : M (bytes * bool) :=
  r <- on_chan send (Chan.recv []) (fun r => set_send (snd r)) ;; ret (fst r).

Definition goto_w (p : WritePc) : M unit := fun w => Ret tt (set_wpc p w).
Definition goto_r (p : ReadPc) : M unit := fun w => Ret tt (set_rpc p w).

(** ** The outbound pump *)

(** [return] in [writePump]: the deferred function runs, then the pump is
    over. *)
Definition writePump_return : M unit :=
  ticker_Stop ;;; conn_Close inWritePump ;;; goto_w WReturned.

(** Entering [writePump]: [ticker := time.NewTicker(pingPeriod)], up to the
    loop. *)
Definition writePump_enter : M unit :=
  fun w =>
    match wpc w with
    | WIdle => (time_NewTicker pingPeriod ;;; goto_w WSelect) w
    | _ => Ret tt w
    end.

(** One step of the loop of [writePump], from its current control point.
    The loop body is cut where another goroutine's send can be observed:
    after the first [w.Write] (before [len(c.send)] is read) and between the
    receives of the range loop. *)
Definition writePump_step (pick : nat) (fail : bool) : M unit :=
  fun w =>
    match wpc w with
    | WIdle => Ret tt w
    | WSelect =>
        match select pick [Chan.recv_ready (send (self w));
                           Chan.recv_ready (C (ticker w));
                           Chan.recv_ready (closed (self w))] with
        | Some 0 =>
            (r <- recv_send ;;
             t <- time_Now ;;
             conn_SetWriteDeadline (t + writeWait) ;;;
             if negb (snd r) then
               conn_WriteMessage CloseMessage [] fail ;;; writePump_return
             else
               err <- conn_NextWriter BinaryMessage fail ;;
               match err with
               | Some _ => writePump_return
               | None => w_Write (fst r) ;;; goto_w WLen
               end) w
        | Some 1 =>
            (recv_tick ;;;
             t <- time_Now ;;
             conn_SetWriteDeadline (t + writeWait) ;;;
             err <- conn_WriteMessage PingMessage [] fail ;;
             match err with
             | Some _ => writePump_return
             | None => ret tt
             end) w
        | Some _ => (recv_closed ;;; writePump_return) w
        | None => Block w
        end
    | WLen => goto_w (WDrain (Chan.len (send (self w)))) w
    | WDrain (S n) => (r <- recv_send ;; w_Write (fst r) ;;; goto_w (WDrain n)) w
    | WDrain 0 =>
        (err <- w_Close fail ;;
         match err with
         | Some _ => writePump_return
         | None => goto_w WSelect
         end) w
    | WReturned => Ret tt w
    end.

(** ** The inbound pump *)

(** What the transport yields inside [c.conn.ReadMessage()]. *)
Inductive ReadEvent : Type :=
| InPong (appData : string)                  (* a pong frame; the read goes on *)
| InMessage (message : bytes)                (* returns message, nil *)
| InError (err : error).                     (* returns nil, err *)

(** gorilla/websocket: true when [err] is a [*CloseError] whose code is not
    one of [expectedCodes]. *)
Definition IsUnexpectedCloseError (err : error) (expectedCodes : list Z) : bool :=
  match err with
  | CloseError code _ => negb (existsb (Z.eqb code) expectedCodes)
  | _ => false
  end.

(** The transport calls the installed pong handler on each pong frame. *)
Definition call_pongHandler (appData : string) : M (option error) :=
  fun w =>
    match pongHandler (conn (self w)) with
    | defaultPongHandler => ret None w
    | resetReadDeadline =>
        (t <- time_Now ;; conn_SetReadDeadline (t + pongWait) ;;; ret None) w
    end.

(** Leaving [readPump]: the deferred [c.Close()] runs. *)
Definition readPump_return : M unit := Close ;;; goto_r RReturned.

(** Entering [readPump], up to the loop. *)
Definition readPump_enter : M unit :=
  fun w =>
    match rpc w with
    | RIdle =>
        (conn_SetReadLimit maxMessageSize ;;;
         t <- time_Now ;;
         conn_SetReadDeadline (t + pongWait) ;;;
         conn_SetPongHandler resetReadDeadline ;;;
         goto_r RLoop) w
    | _ => Ret tt w
    end.

(** One iteration of the loop of [readPump]: what [ReadMessage] yields and
    what the pump does with it. *)
Definition readPump_step (ev : ReadEvent) : M unit :=
  fun w =>
    match rpc w with
    | RIdle => Ret tt w
    | RLoop =>
        match ev with
        | InPong appData => (call_pongHandler appData ;;; ret tt) w
        | InMessage message =>
            match handler (self w) with
            | Some _ => emit (EvHandler message) w
            | None => ret tt w
            end
        | InError err =>
            ((if IsUnexpectedCloseError err [CloseGoingAway; CloseAbnormalClosure]
              then emit (EvLogPrintf err) else ret tt) ;;;
             readPump_return) w
        end
    | RReturned => Ret tt w
    end.

(** ** A pump run by the calling goroutine, to its return

    The script interleaves what the environment does with the steps of the
    pump; a step that cannot proceed leaves the goroutine parked.  [Block]:
    the script ended and the pump has not returned. *)

Fixpoint writePump_loop (script : list (Env + nat * bool)) : M unit :=
  fun w =>
    match wpc w with
    | WReturned => Ret tt w
    | _ =>
        match script with
        | [] => Block w
        | inl e :: rest => writePump_loop rest (env_step e w)
        | inr (pick, fail) :: rest =>
            match writePump_step pick fail w with
            | Ret _ w' | Block w' => writePump_loop rest w'
            | Panic msg w' => Panic msg w'
            end
        end
    end.

Definition writePump (script : list (Env + nat * bool)) : M unit :=
  writePump_enter ;;; writePump_loop script.

Fixpoint readPump_loop (script : list (Env + ReadEvent)) : M unit :=
  fun w =>
    match rpc w with
    | RReturned => Ret tt w
    | _ =>
        match script with
        | [] => Block w
        | inl e :: rest => readPump_loop rest (env_step e w)
        | inr ev :: rest =>
            match readPump_step ev w with
            | Ret _ w' | Block w' => readPump_loop rest w'
            | Panic msg w' => Panic msg w'
            end
        end
    end.

Definition readPump (script : list (Env + ReadEvent)) : M unit :=
  readPump_enter ;;; readPump_loop script.

(** ** The upgrader *)

Record Request : Type := mkRequest { Origin : string; Host : string }.

Record Upgrader : Type := mkUpgrader {
  ReadBufferSize : Z;
  WriteBufferSize : Z;
  CheckOrigin : Request -> bool
}.

Definition upgrader : Upgrader :=
  mkUpgrader 1024 1024
    (* TODO: actually check the origin *)
    (fun r => true).

(** gorilla/websocket [Upgrader.Upgrade]: a request whose origin the
    [CheckOrigin] field rejects is refused; [handshake] is the outcome of
    the rest of the handshake. *)
Definition Upgrader_Upgrade (u : Upgrader) (r : Request) (handshake : Conn + error)
  : Conn + error :=
  if CheckOrigin u r then handshake
  else inr (TransportError "websocket: request origin not allowed by Upgrader.CheckOrigin"%string).

(** ** [Upgrade] *)

Definition newConnection (t : Conn) (h : option MessageHandler) : Connection :=
  mkConnection t (Chan.make 256) h false (Chan.make 0).

(** The world of a connection whose pumps have not been entered; there is
    no ticker yet, which is a stopped one. *)
Definition world0 (c : Connection) (t0 : Z) : World :=
  mkWorld c t0 [] (mkTicker 0 (Chan.make 1) true) WIdle RIdle.

Inductive UpgradeResult : Type :=
| UpgradeError (err : error)                 (* return nil, err *)
| UpgradeReturned (w : World)                (* return c, nil: the world at that point *)
| UpgradeRunning (w : World)                 (* not returned: inside a deferred call *)
| UpgradePanic (msg : string) (w : World).

(** [defer c.readPump(); defer c.writePump(); return c, nil]: the deferred
    calls run on the calling goroutine when the function returns, last
    deferred first, and the caller gets [c] after both.  A panic of the
    first does not skip the second. *)
Definition Upgrade (r : Request) (handshake : Conn + error)
    (h : option MessageHandler) (t0 : Z)
    (wscript : list (Env + nat * bool)) (rscript : list (Env + ReadEvent))
  : UpgradeResult :=
  match Upgrader_Upgrade upgrader r handshake with
  | inr err => UpgradeError err
  | inl t =>
      let c := newConnection t h in
      match writePump wscript (world0 c t0) with
      | Ret _ w1 =>
          match readPump rscript w1 with
          | Ret _ w2 => UpgradeReturned w2
          | Block w2 => UpgradeRunning w2
          | Panic msg w2 => UpgradePanic msg w2
          end
      | Block w1 => UpgradeRunning w1
      | Panic msg w1 =>
          match readPump rscript w1 with
          | Ret _ w2 => UpgradePanic msg w2
          | Block w2 => UpgradeRunning w2
          | Panic msg2 w2 => UpgradePanic msg2 w2
          end
      end
  end.

(** ** Goroutines interleaved

    When the pumps run on goroutines of their own, a run of the connection
    is a list of actions: calls of the facade by any goroutine, steps of
    either pump, and the environment.  A call of the facade is one action:
    its [select] is atomic in the runtime and the body of [Close] runs under
    the lock of the Once.  A call that panics is taken as recovered by its
    caller, and a step that cannot proceed leaves the world as it is. *)

Inductive Action : Type :=
| CallSendBinary (pick : nat) (data : bytes)
| CallClose
| CallIsClosed
| EnterWritePump
| StepWritePump (pick : nat) (fail : bool)
| EnterReadPump
| StepReadPump (ev : ReadEvent)
| EnvStep (e : Env).

Definition exec (a : Action) (w : World) : World :=
  match a with
  | CallSendBinary pick data => world_of (SendBinary pick data w)
  | CallClose => world_of (Close w)
  | CallIsClosed => world_of (IsClosed w)
  | EnterWritePump => world_of (writePump_enter w)
  | StepWritePump pick fail => world_of (writePump_step pick fail w)
  | EnterReadPump => world_of (readPump_enter w)
  | StepReadPump ev => world_of (readPump_step ev w)
  | EnvStep e => env_step e w
  end.

Definition run (acts : list Action) (w : World) : World := fold_left (fun w a => exec a w) acts w.

Definition reachable (w : World) : Prop :=
  exists t h t0 acts, w = run acts (world0 (newConnection t h) t0).

(** ** What a trace says *)

Definition is_signal (e : Event) : bool :=
  match e with EvCloseSignal => true | _ => false end.
Definition is_queue_close (e : Event) : bool :=
  match e with EvCloseQueue => true | _ => false end.
Definition is_teardown_close (e : Event) : bool :=
  match e with EvConnClose inClose => true | _ => false end.
Definition is_log (e : Event) : bool :=
  match e with EvLogPrintf _ => true | _ => false end.

Definition count (p : Event -> bool) (tr : list Event) : nat :=
  List.length (filter p tr).

(** The chunks handed to [w.Write], in order. *)
Fixpoint written (tr : list Event) : list bytes :=
  match tr with
  | [] => []
  | EvWrite data :: r => data :: written r
  | _ :: r => written r
  end.

(** The errors printed by [log.Printf], in order. *)
Fixpoint logged (tr : list Event) : list error :=
  match tr with
  | [] => []
  | EvLogPrintf e :: r => e :: logged r
  | _ :: r => logged r
  end.

(** The data of the [SendBinary] calls of a run that returned nil, in the
    order of the calls. *)
Definition accepted1 (a : Action) (w : World) : list bytes :=
  match a with
  | CallSendBinary pick data =>
      match SendBinary pick data w with
      | Ret None _ => [data]
      | _ => []
      end
  | _ => []
  end.

Fixpoint accepted (acts : list Action) (w : World) : list bytes :=
  match acts with
  | [] => []
  | a :: rest => accepted1 a w ++ accepted rest (exec a w)
  end.

(** ** Invariants of a connection *)

Record Inv (w : World) : Prop := mkInv {
  inv_signal : Chan.closed (closed (self w)) = closeOnce (self w);
  inv_queue : Chan.closed (send (self w)) = closeOnce (self w);
  inv_signal_empty : Chan.buf (closed (self w)) = [];
  inv_cap : Chan.cap (send (self w)) = 256;
  inv_len : List.length (Chan.buf (send (self w))) <= 256;
  inv_drain : match wpc w with
              | WDrain n => n <= List.length (Chan.buf (send (self w)))
              | _ => True
              end;
  inv_read_returned : rpc w = RReturned -> closeOnce (self w) = true;
  inv_pong : rpc w = RLoop -> pongHandler (conn (self w)) = resetReadDeadline;
  inv_teardown :
    let n := if closeOnce (self w) then 1 else 0 in
    count is_signal (trace w) = n /\
    count is_queue_close (trace w) = n /\
    count is_teardown_close (trace w) = n
}.

(** What one action may change: the Once stays done, a returned pump stays
    returned and writes nothing, the queue loses at its head what the pump
    hands to the writer and gains at its tail what [SendBinary] accepts. *)
Record Step (w : World) (a : Action) (w' : World) : Prop := mkStep {
  st_once : closeOnce (self w) = true -> closeOnce (self w') = true;
  st_wret : wpc w = WReturned ->
            wpc w' = WReturned /\ written (trace w') = written (trace w);
  st_rret : rpc w = RReturned -> rpc w' = RReturned;
  st_fifo : wpc w' <> WReturned ->
            written (trace w') ++ Chan.buf (send (self w')) =
            written (trace w) ++ Chan.buf (send (self w)) ++ accepted1 a w;
  st_prefix : exists d rest,
            written (trace w') = written (trace w) ++ d /\
            Chan.buf (send (self w)) = d ++ rest
}.

(** ** Scripts and worlds of [Upgrade] *)

(** No transport write of the script fails. *)
Definition no_write_fails (script : list (Env + nat * bool)) : bool :=
  forallb (fun x => match x with inr (_, true) => false | _ => true end) script.

(** Inside [Upgrade], before the pumps return: nothing is queued, nothing is
    closed, the outbound pump is at its select and the inbound pump has not
    been entered. *)
Definition quiet (w : World) : Prop :=
  wpc w = WSelect /\ rpc w = RIdle /\
  Chan.buf (send (self w)) = [] /\ Chan.closed (send (self w)) = false /\
  Chan.buf (closed (self w)) = [] /\ Chan.closed (closed (self w)) = false.

(** ** Concrete inputs *)

Definition conn0 : Conn := mkConn 0 None None defaultPongHandler.

(** A connection as [Upgrade] builds it, at time 0. *)
Definition fresh : World := world0 (newConnection conn0 (Some appHandler)) 0.

(** ** More observers *)

(** The payloads passed to [c.handler], in order. *)
Fixpoint handled (tr : list Event) : list bytes :=
  match tr with
  | [] => []
  | EvHandler data :: r => data :: handled r
  | _ :: r => handled r
  end.

(** Calls on the write side of the transport. *)
Definition is_write_call (e : Event) : bool :=
  match e with
  | EvSetWriteDeadline _ | EvWriteMessage _ _ | EvNextWriter _
  | EvWrite _ | EvWriterClose => true
  | _ => false
  end.

(** Calls on the read side of the transport. *)
Definition is_read_call (e : Event) : bool :=
  match e with
  | EvSetReadLimit _ | EvSetReadDeadline _ | EvSetPongHandler => true
  | _ => false
  end.

Definition is_ping (e : Event) : bool :=
  match e with
  | EvWriteMessage ty [] => (ty =? PingMessage)%Z
  | _ => false
  end.

(** What a script makes [ReadMessage] return before its first error. *)
Fixpoint messages_before_error (script : list (Env + ReadEvent)) : list bytes :=
  match script with
  | [] => []
  | inr (InMessage m) :: r => m :: messages_before_error r
  | inr (InError _) :: _ => []
  | _ :: r => messages_before_error r
  end.

Definition is_read_error (x : Env + ReadEvent) : bool :=
  match x with inr (InError _) => true | _ => false end.

(** A bound on the steps the outbound pump has left once the connection is
    closed: four per queued message, one per pending tick, and what is left
    of the current iteration. *)
Definition steps_left (w : World) : nat :=
  4 * Chan.len (send (self w)) + Chan.len (C (ticker w)) +
  match wpc w with
  | WSelect => 1
  | WDrain _ => 2
  | WLen => 3
  | _ => 0
  end.

(** Steps of the outbound pump alone. *)
Definition pump_steps (l : list (nat * bool)) : list Action :=
  map (fun s => StepWritePump (fst s) (snd s)) l.

Definition is_write_step (a : Action) : bool :=
  match a with StepWritePump _ _ => true | _ => false end.

Definition is_read_step (a : Action) : bool :=
  match a with EnterReadPump | StepReadPump _ => true | _ => false end.

(** * Proofs *)

(** ** [select] *)

Lemma ready_cases_spec (ready : list bool) :
  forall j i, In i (ready_cases j ready) -> j <= i /\ nth (i - j) ready false = true.
Proof.
  induction ready as [|b r IH]; intros j i Hin; simpl in Hin; [contradiction|].
  destruct b.
  - destruct Hin as [<- | Hin].
    + split; [lia|]. now rewrite Nat.sub_diag.
    + apply IH in Hin as [Hle Hn]. split; [lia|].
      replace (i - j) with (S (i - S j)) by lia. exact Hn.
  - apply IH in Hin as [Hle Hn]. split; [lia|].
    replace (i - j) with (S (i - S j)) by lia. exact Hn.
Qed.

Lemma select_Some_ready (pick : nat) (ready : list bool) (i : nat) :
  select pick ready = Some i -> nth i ready false = true.
Proof.
  unfold select. destruct (ready_cases 0 ready) as [|k r] eqn:E; [discriminate|].
  intros [= <-].
  assert (Hin : In (nth (pick mod List.length (k :: r)) (k :: r) k) (ready_cases 0 ready)).
  { rewrite E. apply nth_In. apply Nat.mod_upper_bound. discriminate. }
  apply ready_cases_spec in Hin as [_ Hn]. now rewrite Nat.sub_0_r in Hn.
Qed.

Lemma ready_cases_nil (ready : list bool) :
  forall j, ready_cases j ready = [] -> forall b, In b ready -> b = false.
Proof.
  induction ready as [|b r IH]; intros j E c Hin; [contradiction|].
  simpl in E. destruct b; [discriminate|].
  destruct Hin as [<- | Hin]; [reflexivity | eauto].
Qed.

Lemma select_None (pick : nat) (ready : list bool) :
  select pick ready = None -> forall b, In b ready -> b = false.
Proof.
  unfold select. destruct (ready_cases 0 ready) eqn:E; [|discriminate].
  intros _. eapply ready_cases_nil; eauto.
Qed.

Lemma select_first (ready : list bool) :
  select 0 (true :: ready) = Some 0.
Proof.
  unfold select. cbn [ready_cases].
  now rewrite Nat.Div0.mod_0_l.
Qed.

Arguments select : simpl never.

(** ** Traces *)

Lemma count_app (p : Event -> bool) (a b : list Event) :
  count p (a ++ b) = count p a + count p b.
Proof. unfold count. now rewrite filter_app, length_app. Qed.

Lemma written_app (a b : list Event) : written (a ++ b) = written a ++ written b.
Proof.
  induction a as [|e a IH]; simpl; [reflexivity|].
  destruct e; simpl; now rewrite ?IH.
Qed.

Lemma logged_app (a b : list Event) : logged (a ++ b) = logged a ++ logged b.
Proof.
  induction a as [|e a IH]; simpl; [reflexivity|].
  destruct e; simpl; now rewrite ?IH.
Qed.

(** ** The invariant holds initially and is kept by every action *)

Lemma Inv_world0 (t : Conn) (h : option MessageHandler) (t0 : Z) :
  Inv (world0 (newConnection t h) t0).
Proof. constructor; simpl; auto; try discriminate. lia. Qed.

Ltac unfold_ops :=
  unfold exec, world_of, SendBinary, Close, closeOnce_Do, IsClosed, recv_closed,
    writePump_step, writePump_enter, writePump_return, readPump_step,
    readPump_enter, readPump_return, call_pongHandler, env_step,
    conn_Close, conn_SetReadLimit, conn_SetReadDeadline, conn_SetWriteDeadline,
    conn_SetPongHandler, conn_WriteMessage, conn_NextWriter, w_Write, w_Close,
    fallible, time_NewTicker, time_Now, ticker_Stop, recv_tick, recv_send,
    goto_w, goto_r, on_chan, emit, bind, ret,
    Chan.recv_ready, Chan.send_ready, Chan.close, Chan.recv, Chan.send, Chan.len
    in *.

Ltac open_world w :=
  destruct w as [[[rl rd wd ph] [sb sc scl] hd once [cb cc ccl]] nw tr [tp [tb tc tcl] st] wp rp].

Ltac open_inv H :=
  destruct H as [I1 I2 I3 I4 I5 I6 I7 I8 [I9 [I10 I11]]]; simpl in *; subst.

Lemma Close_spec (w : World) :
  Inv w ->
  exists w',
    Close w = Ret tt w' /\ Inv w' /\
    closeOnce (self w') = true /\
    Chan.closed (closed (self w')) = true /\
    trace w' = trace w ++ (if closeOnce (self w) then []
                           else [EvCloseSignal; EvCloseQueue; EvConnClose inClose]) /\
    Chan.buf (send (self w')) = Chan.buf (send (self w)) /\
    conn (self w') = conn (self w) /\
    wpc w' = wpc w /\ rpc w' = rpc w /\
    (closeOnce (self w) = true -> w' = w).
Proof.
  intros H. open_world w. open_inv H. unfold_ops. simpl.
  destruct once; simpl.
  - eexists; split; [reflexivity|]. rewrite app_nil_r.
    repeat split; simpl; auto.
  - eexists; split; [reflexivity|].
    unfold log; simpl. rewrite <- !app_assoc. simpl.
    repeat split; simpl; auto; try discriminate;
      rewrite count_app; unfold count in *; simpl; lia.
Qed.

Ltac inv_goal :=
  constructor; unfold log in *; simpl in *; auto; try discriminate; try lia;
  try (repeat split; rewrite ?count_app; unfold count in *; simpl; lia).

Lemma Close_Inv (w : World) : Inv w -> Inv (world_of (Close w)).
Proof.
  intros H. destruct (Close_spec H) as (w' & E & H' & _). now rewrite E.
Qed.

Lemma IsClosed_spec (w : World) :
  Inv w -> IsClosed w = Ret (Chan.closed (closed (self w))) w.
Proof.
  intros H. open_world w. open_inv H. unfold_ops. simpl.
  destruct once; reflexivity.
Qed.

Lemma SendBinary_Inv (pick : nat) (data : bytes) (w : World) :
  Inv w -> Inv (world_of (SendBinary pick data w)).
Proof.
  intros H. unfold SendBinary.
  destruct (select pick _) as [[|[|i]]|] eqn:Hsel.
  - apply select_Some_ready in Hsel. clear -H Hsel.
    open_world w. open_inv H. unfold_ops. simpl in *.
    destruct once; simpl in *; [inv_goal|].
    rewrite Hsel. simpl. apply Nat.ltb_lt in Hsel.
    inv_goal; rewrite ?length_app; simpl; try lia.
    destruct wp; auto; lia.
  - clear Hsel. open_world w. open_inv H. unfold_ops. simpl.
    destruct once; simpl; inv_goal.
  - apply select_Some_ready in Hsel. simpl in Hsel. now destruct i.
  - unfold bind, ret. destruct (Close_spec H) as (w' & E & H' & _).
    now rewrite E.
Qed.

Lemma env_step_Inv (e : Env) (w : World) : Inv w -> Inv (env_step e w).
Proof.
  intros H. open_world w. open_inv H. destruct e; unfold_ops; simpl.
  - destruct st; [inv_goal|]. destruct tcl; [inv_goal|].
    destruct (_ <? _); inv_goal.
  - inv_goal.
Qed.

Lemma readPump_enter_Inv (w : World) : Inv w -> Inv (world_of (readPump_enter w)).
Proof.
  intros H. open_world w. open_inv H. unfold_ops; simpl.
  destruct rp; simpl; inv_goal.
Qed.

Lemma readPump_step_Inv (ev : ReadEvent) (w : World) :
  Inv w -> Inv (world_of (readPump_step ev w)).
Proof.
  intros H. unfold readPump_step.
  destruct (rpc w) eqn:Hpc; simpl; auto.
  destruct ev as [appData | message | err].
  - open_world w. open_inv H. unfold_ops; simpl.
    destruct ph; simpl; inv_goal.
  - open_world w. open_inv H. unfold_ops; simpl.
    destruct hd; simpl; inv_goal.
  - unfold bind, readPump_return, bind, goto_r.
    set (w1 := world_of ((if IsUnexpectedCloseError err [CloseGoingAway; CloseAbnormalClosure]
                          then emit (EvLogPrintf err) else ret tt) w)).
    assert (H1 : Inv w1).
    { subst w1. clear Hpc. open_world w. open_inv H.
      destruct (IsUnexpectedCloseError _ _); unfold_ops; simpl; inv_goal. }
    assert (E1 : (if IsUnexpectedCloseError err [CloseGoingAway; CloseAbnormalClosure]
                  then emit (EvLogPrintf err) else ret tt) w = Ret tt w1).
    { subst w1. destruct (IsUnexpectedCloseError _ _); reflexivity. }
    rewrite E1. destruct (Close_spec H1) as (w' & E & H' & Ho & _).
    rewrite E. simpl. clear -H' Ho.
    open_world w'. open_inv H'. inv_goal.
Qed.

Lemma writePump_enter_Inv (w : World) : Inv w -> Inv (world_of (writePump_enter w)).
Proof.
  intros H. open_world w. open_inv H. unfold_ops; simpl.
  destruct wp; simpl; inv_goal.
Qed.

Lemma writePump_step_Inv (pick : nat) (fail : bool) (w : World) :
  Inv w -> Inv (world_of (writePump_step pick fail w)).
Proof.
  intros H. unfold writePump_step.
  destruct (wpc w) as [| | |[|n]|] eqn:Hpc; simpl; auto.
  - (* the select *)
    destruct (select pick _) as [[|[|i]]|] eqn:Hsel; simpl; auto; clear Hsel.
    + open_world w. open_inv H. unfold_ops; simpl.
      destruct sb as [|m q]; simpl.
      * destruct once; simpl; [|inv_goal]. inv_goal.
      * destruct fail; simpl; inv_goal.
    + open_world w. open_inv H. unfold_ops; simpl.
      destruct tb as [|k q]; simpl.
      * destruct tcl; simpl; [|inv_goal]. destruct fail; simpl; inv_goal.
      * destruct fail; simpl; inv_goal.
    + open_world w. open_inv H. unfold_ops; simpl.
      destruct once; simpl; inv_goal.
  - open_world w. open_inv H. unfold_ops; simpl. inv_goal.
  - open_world w. open_inv H. unfold_ops; simpl.
    destruct fail; simpl; inv_goal.
  - open_world w. open_inv H. unfold_ops; simpl.
    destruct sb as [|m q]; simpl in *; [lia|]. inv_goal.
Qed.

Lemma exec_Inv (a : Action) (w : World) : Inv w -> Inv (exec a w).
Proof.
  destruct a; simpl.
  - apply SendBinary_Inv.
  - apply Close_Inv.
  - intros H. now rewrite IsClosed_spec.
  - apply writePump_enter_Inv.
  - apply writePump_step_Inv.
  - apply readPump_enter_Inv.
  - apply readPump_step_Inv.
  - apply env_step_Inv.
Qed.

Lemma run_app (acts1 acts2 : list Action) (w : World) :
  run (acts1 ++ acts2) w = run acts2 (run acts1 w).
Proof. unfold run. apply fold_left_app. Qed.

Lemma run_Inv (acts : list Action) : forall w, Inv w -> Inv (run acts w).
Proof.
  induction acts as [|a acts IH]; intros w H; simpl; auto.
  apply IH, exec_Inv, H.
Qed.

Lemma reachable_Inv (w : World) : reachable w -> Inv w.
Proof.
  intros (t & h & t0 & acts & ->). apply run_Inv, Inv_world0.
Qed.

Lemma reachable_run (acts : list Action) (w : World) :
  reachable w -> reachable (run acts w).
Proof.
  intros (t & h & t0 & acts0 & ->). exists t, h, t0, (acts0 ++ acts).
  now rewrite run_app.
Qed.

(** ** What one action changes *)

Ltac step_fin :=
  unfold log in *; simpl in *;
  lazymatch goal with
  | |- _ = true -> _ = true => solve [auto | discriminate]
  | |- _ = WReturned -> _ /\ _ =>
      let Hw := fresh "Hw" in
      intros Hw;
      first [ discriminate Hw
            | split; [ solve [auto | discriminate]
                     | rewrite ?written_app; simpl; rewrite ?app_nil_r; auto ] ]
  | |- _ = RReturned -> _ = RReturned => solve [auto | discriminate]
  | |- _ <> WReturned -> _ =>
      try (intros Hc; now contradiction Hc);
      intros _; rewrite ?written_app; simpl; rewrite ?app_nil_r, <- ?app_assoc; auto
  | |- exists d rest, _ =>
      first [ exists (@nil bytes); eexists; split;
              [ rewrite ?written_app; simpl; rewrite ?app_nil_r; reflexivity
              | reflexivity ]
            | eexists [_]; eexists; split;
              [ rewrite ?written_app; simpl; rewrite ?app_nil_r; reflexivity
              | reflexivity ] ]
  end.

Lemma Step_refl (a : Action) (w : World) : accepted1 a w = [] -> Step w a w.
Proof.
  intros E. constructor; auto.
  - intros _. now rewrite E, !app_nil_r.
  - exists [], (Chan.buf (send (self w))). now rewrite app_nil_r.
Qed.

Lemma Close_Step (a : Action) (w : World) :
  Inv w -> accepted1 a w = [] -> Step w a (world_of (Close w)).
Proof.
  intros H Ea. destruct (Close_spec H) as (w' & E & _ & Ho & _ & Et & Eb & _ & Ew & Er & _).
  rewrite E. simpl.
  assert (Ewr : written (trace w') = written (trace w)).
  { rewrite Et, written_app. destruct (closeOnce (self w)); simpl; now rewrite app_nil_r. }
  constructor; auto.
  - intros Hw. split; congruence.
  - congruence.
  - intros _. now rewrite Ewr, Eb, Ea, app_nil_r.
  - exists [], (Chan.buf (send (self w))). now rewrite Ewr, app_nil_r.
Qed.

Lemma SendBinary_Step (pick : nat) (data : bytes) (w : World) :
  Inv w ->
  Step w (CallSendBinary pick data) (world_of (SendBinary pick data w)).
Proof.
  intros H. unfold accepted1.
  assert (Hc : select pick [Chan.send_ready (send (self w));
                           Chan.recv_ready (closed (self w))] = None ->
               Step w (CallSendBinary pick data) (world_of (SendBinary pick data w))).
  { intros Hsel.
    assert (Ea : accepted1 (CallSendBinary pick data) w = []).
    { unfold accepted1, SendBinary. rewrite Hsel. unfold bind, ret.
      destruct (Close w); reflexivity. }
    pose proof (Close_Step (CallSendBinary pick data) H Ea) as S.
    unfold SendBinary. rewrite Hsel. unfold bind, ret.
    destruct (Close w); exact S. }
  destruct (select pick _) as [[|[|i]]|] eqn:Hsel; [| | |now apply Hc]; clear Hc.
  - pose proof (select_Some_ready _ _ Hsel) as Hr.
    constructor; unfold accepted1, SendBinary; rewrite Hsel; clear Hsel;
      open_world w; open_inv H; unfold_ops; simpl in *;
      (destruct once; simpl in *; try rewrite Hr; simpl); step_fin.
  - constructor; unfold accepted1, SendBinary; rewrite Hsel; clear Hsel;
      open_world w; open_inv H; unfold_ops; simpl in *;
      (destruct once; simpl in *); step_fin.
  - apply select_Some_ready in Hsel. simpl in Hsel. now destruct i.
Qed.

Lemma env_step_Step (e : Env) (w : World) : Inv w -> Step w (EnvStep e) (env_step e w).
Proof.
  intros H. constructor; open_world w; open_inv H; destruct e; unfold_ops; simpl;
    try (destruct st; [|destruct tcl; [|destruct (_ <? _)]]); step_fin.
Qed.

Lemma readPump_enter_Step (w : World) :
  Inv w -> Step w EnterReadPump (world_of (readPump_enter w)).
Proof.
  intros H. constructor; open_world w; open_inv H; unfold_ops; simpl;
    destruct rp; simpl; step_fin.
Qed.

Lemma writePump_enter_Step (w : World) :
  Inv w -> Step w EnterWritePump (world_of (writePump_enter w)).
Proof.
  intros H. constructor; open_world w; open_inv H; unfold_ops; simpl;
    destruct wp; simpl; step_fin.
Qed.

Lemma readPump_step_Step (ev : ReadEvent) (w : World) :
  Inv w -> Step w (StepReadPump ev) (world_of (readPump_step ev w)).
Proof.
  intros H. unfold readPump_step.
  destruct (rpc w) eqn:Hpc; simpl; try now apply Step_refl.
  destruct ev as [appData | message | err].
  - constructor; open_world w; open_inv H; unfold_ops; simpl;
      destruct ph; simpl; step_fin.
  - constructor; open_world w; open_inv H; unfold_ops; simpl;
      destruct hd; simpl; step_fin.
  - unfold bind, readPump_return, bind, goto_r.
    set (w1 := world_of ((if IsUnexpectedCloseError err [CloseGoingAway; CloseAbnormalClosure]
                          then emit (EvLogPrintf err) else ret tt) w)).
    assert (H1 : Inv w1 /\ self w1 = self w /\ wpc w1 = wpc w /\ rpc w1 = rpc w /\
                 written (trace w1) = written (trace w)).
    { subst w1. clear Hpc.
      destruct (IsUnexpectedCloseError _ _); unfold_ops; simpl; [|now auto].
      split; [open_world w; open_inv H; inv_goal|].
      repeat split. unfold log; simpl. rewrite written_app. simpl.
      now rewrite app_nil_r. }
    assert (E1 : (if IsUnexpectedCloseError err [CloseGoingAway; CloseAbnormalClosure]
                  then emit (EvLogPrintf err) else ret tt) w = Ret tt w1).
    { subst w1. destruct (IsUnexpectedCloseError _ _); reflexivity. }
    rewrite E1. destruct H1 as (H1 & Es & Ew & Er & Et).
    destruct (Close_spec H1) as (w' & E & _ & Ho & _ & Etr & Eb & _ & Ew' & Er' & _).
    rewrite E. simpl.
    assert (Ewr : written (trace w') = written (trace w)).
    { rewrite Etr, written_app, Et.
      destruct (closeOnce (self w1)); simpl; now rewrite app_nil_r. }
    constructor; simpl; auto.
    + intros Hw. split; congruence.
    + intros _. rewrite Ewr, Eb, Es. now rewrite app_nil_r.
    + exists [], (Chan.buf (send (self w))). now rewrite Ewr, app_nil_r.
Qed.

Lemma writePump_step_Step (pick : nat) (fail : bool) (w : World) :
  Inv w -> Step w (StepWritePump pick fail) (world_of (writePump_step pick fail w)).
Proof.
  intros H. unfold writePump_step.
  destruct (wpc w) as [| | |[|n]|] eqn:Hpc; simpl; try now apply Step_refl.
  - destruct (select pick _) as [[|[|i]]|] eqn:Hsel; simpl;
      try (now apply Step_refl); clear Hsel.
    + constructor; open_world w; open_inv H; unfold_ops; simpl;
        (destruct sb as [|m q]; simpl;
         [destruct once; simpl | destruct fail; simpl]); step_fin.
    + constructor; open_world w; open_inv H; unfold_ops; simpl;
        (destruct tb as [|k q]; simpl;
         [destruct tcl; simpl|]; try (destruct fail; simpl)); step_fin.
    + constructor; open_world w; open_inv H; unfold_ops; simpl;
        (destruct once; simpl); step_fin.
  - constructor; open_world w; open_inv H; unfold_ops; simpl; step_fin.
  - constructor; open_world w; open_inv H; unfold_ops; simpl;
      (destruct fail; simpl); step_fin.
  - constructor; open_world w; open_inv H; unfold_ops; simpl;
      (destruct sb as [|m q]; simpl in *; [lia|]); step_fin.
Qed.

Lemma exec_Step (a : Action) (w : World) : Inv w -> Step w a (exec a w).
Proof.
  intros H. destruct a; simpl.
  - now apply SendBinary_Step.
  - now apply Close_Step.
  - rewrite IsClosed_spec by assumption. now apply Step_refl.
  - now apply writePump_enter_Step.
  - now apply writePump_step_Step.
  - now apply readPump_enter_Step.
  - now apply readPump_step_Step.
  - now apply env_step_Step.
Qed.

(** ** Runs *)

Lemma run_closeOnce (acts : list Action) :
  forall w, Inv w -> closeOnce (self w) = true -> closeOnce (self (run acts w)) = true.
Proof.
  induction acts as [|a acts IH]; intros w H Ho; simpl; auto.
  apply IH; [now apply exec_Inv|].
  now apply (st_once (exec_Step a H)).
Qed.

Lemma run_wpc_returned (acts : list Action) :
  forall w, Inv w -> wpc w = WReturned ->
  wpc (run acts w) = WReturned /\ written (trace (run acts w)) = written (trace w).
Proof.
  induction acts as [|a acts IH]; intros w H Hw; simpl; auto.
  destruct (st_wret (exec_Step a H) Hw) as [Hw' Et].
  destruct (IH (exec a w) (exec_Inv a H) Hw') as [Hw'' Et'].
  split; congruence.
Qed.

Lemma run_rpc_returned (acts : list Action) :
  forall w, Inv w -> rpc w = RReturned -> rpc (run acts w) = RReturned.
Proof.
  induction acts as [|a acts IH]; intros w H Hr; simpl; auto.
  apply IH; [now apply exec_Inv|].
  now apply (st_rret (exec_Step a H)).
Qed.

Lemma accepted_app (acts1 acts2 : list Action) :
  forall w, accepted (acts1 ++ acts2) w = accepted acts1 w ++ accepted acts2 (run acts1 w).
Proof.
  induction acts1 as [|a acts1 IH]; intros w; simpl; [reflexivity|].
  now rewrite IH, app_assoc.
Qed.

Lemma Inv_closed_IsClosed (w : World) :
  Inv w -> closeOnce (self w) = true -> IsClosed w = Ret true w.
Proof.
  intros H Ho. rewrite IsClosed_spec by assumption.
  now rewrite (inv_signal H), Ho.
Qed.

(** ** C3: the teardown runs once *)

(** C3. From any reachable state of a connection, a call of [Close] returns
    normally; whatever actions follow (further calls of [Close] by callers,
    by [SendBinary] on a full buffer or by the inbound pump, steps of the
    pumps, calls of the facade), the trace holds exactly one
    [close(c.closed)], one [close(c.send)] and one [c.conn.Close()] made by
    the teardown, and one more call of [Close] returns normally and changes
    nothing. *)
Theorem Close_teardown_exactly_once (w : World) (acts : list Action) :
  reachable w ->
  exists w1,
    Close w = Ret tt w1 /\
    count is_signal (trace (run acts w1)) = 1 /\
    count is_queue_close (trace (run acts w1)) = 1 /\
    count is_teardown_close (trace (run acts w1)) = 1 /\
    Close (run acts w1) = Ret tt (run acts w1).
Proof.
  intros Hr. apply reachable_Inv in Hr.
  destruct (Close_spec Hr) as (w1 & E & H1 & Ho & _).
  exists w1. split; [exact E|].
  pose proof (run_Inv acts H1) as H2.
  pose proof (run_closeOnce acts H1 Ho) as Ho2.
  destruct (inv_teardown H2) as (Ea & Eb & Ec). rewrite Ho2 in Ea, Eb, Ec.
  repeat split; auto.
  destruct (Close_spec H2) as (w3 & E3 & _ & _ & _ & _ & _ & _ & _ & _ & Hsame).
  now rewrite E3, (Hsame Ho2).
Qed.

Lemma reachable_fresh : reachable fresh.
Proof. exists conn0, (Some appHandler), 0%Z, []. reflexivity. Defined.

Lemma Close_teardown_exactly_once_witness :
  reachable fresh /\
  exists w1,
    Close fresh = Ret tt w1 /\
    count is_signal (trace (run [CallClose; StepReadPump (InError (CloseError 1000 "bye")); CallClose] w1)) = 1 /\
    count is_queue_close (trace (run [CallClose; StepReadPump (InError (CloseError 1000 "bye")); CallClose] w1)) = 1 /\
    count is_teardown_close (trace (run [CallClose; StepReadPump (InError (CloseError 1000 "bye")); CallClose] w1)) = 1 /\
    Close (run [CallClose; StepReadPump (InError (CloseError 1000 "bye")); CallClose] w1) =
    Ret tt (run [CallClose; StepReadPump (InError (CloseError 1000 "bye")); CallClose] w1).
Proof.
  split; [exact reachable_fresh|].
  apply (@Close_teardown_exactly_once fresh
           [CallClose; StepReadPump (InError (CloseError 1000 "bye")); CallClose]).
  exact reachable_fresh.
Defined.

(** ** C2, C5, C10: the facade once the connection is closed *)

Lemma SendBinary_closed (w : World) (pick : nat) (data : bytes) :
  Inv w -> closeOnce (self w) = true ->
  SendBinary pick data w =
  match select pick [true; true] with
  | Some 0 => Panic "send on closed channel" w
  | _ => Ret (Some ErrorConnectionClosed) w
  end.
Proof.
  intros H Ho. open_world w. open_inv H. unfold_ops. simpl in *.
  reflexivity.
Qed.

(** C2. Take any reachable connection, let [Close] execute, then let any
    actions follow.  [IsClosed] returns true.  [SendBinary] never returns
    nil and never blocks, but what it does depends on the poll order of its
    [select], in which both the send on the closed queue and the receive
    from the closed signal can proceed: polled first, the send panics with
    [send on closed channel]; otherwise the call returns
    [ErrorConnectionClosed]. *)
Theorem SendBinary_after_Close (w : World) (acts : list Action) (data : bytes) :
  reachable w ->
  let w' := run acts (world_of (Close w)) in
  IsClosed w' = Ret true w' /\
  SendBinary 0 data w' = Panic "send on closed channel" w' /\
  SendBinary 1 data w' = Ret (Some ErrorConnectionClosed) w' /\
  forall pick,
    SendBinary pick data w' = Panic "send on closed channel" w' \/
    SendBinary pick data w' = Ret (Some ErrorConnectionClosed) w'.
Proof.
  intros Hr w'. apply reachable_Inv in Hr.
  destruct (Close_spec Hr) as (w1 & E & H1 & Ho & _).
  assert (H' : Inv w') by (subst w'; rewrite E; now apply run_Inv).
  assert (Ho' : closeOnce (self w') = true)
    by (subst w'; rewrite E; now apply run_closeOnce).
  split; [now apply Inv_closed_IsClosed|].
  split; [now rewrite SendBinary_closed|].
  split; [now rewrite SendBinary_closed|].
  intros pick. rewrite SendBinary_closed by assumption.
  destruct (select pick [true; true]) as [[|i]|]; auto.
Qed.

Lemma SendBinary_after_Close_witness :
  reachable fresh /\
  SendBinary 0 [x01] (run [] (world_of (Close fresh))) =
  Panic "send on closed channel" (run [] (world_of (Close fresh))).
Proof.
  split; [exact reachable_fresh|].
  apply (@SendBinary_after_Close fresh [] [x01] reachable_fresh).
Defined.

(** C5. On a reachable connection that is open ([IsClosed] returns false)
    and whose queue is full, [SendBinary] returns [ErrorBufferFull] whatever
    the poll order, and [IsClosed] then returns true. *)
Theorem SendBinary_full_closes (w : World) (pick : nat) (data : bytes) :
  reachable w ->
  IsClosed w = Ret false w ->
  Chan.len (send (self w)) = Chan.cap (send (self w)) ->
  exists w',
    SendBinary pick data w = Ret (Some ErrorBufferFull) w' /\
    IsClosed w' = Ret true w'.
Proof.
  intros Hr Hopen Hfull. apply reachable_Inv in Hr.
  rewrite IsClosed_spec in Hopen by assumption.
  assert (Hc : Chan.closed (closed (self w)) = false) by congruence. clear Hopen.
  destruct (Close_spec Hr) as (w1 & E & H1 & Ho & _).
  exists w1. split; [|now apply Inv_closed_IsClosed].
  unfold SendBinary.
  assert (Hsel : select pick [Chan.send_ready (send (self w));
                              Chan.recv_ready (closed (self w))] = None).
  { unfold Chan.send_ready, Chan.recv_ready.
    rewrite (inv_queue Hr), <- (inv_signal Hr), Hc, (inv_signal_empty Hr), Hfull.
    now rewrite Nat.ltb_irrefl. }
  rewrite Hsel. unfold bind, ret. now rewrite E.
Qed.

Lemma SendBinary_full_closes_witness :
  reachable (run (repeat (CallSendBinary 0 [x2a]) 256) fresh) /\
  IsClosed (run (repeat (CallSendBinary 0 [x2a]) 256) fresh) =
    Ret false (run (repeat (CallSendBinary 0 [x2a]) 256) fresh) /\
  Chan.len (send (self (run (repeat (CallSendBinary 0 [x2a]) 256) fresh))) = 256 /\
  exists w',
    SendBinary 7 [x2b] (run (repeat (CallSendBinary 0 [x2a]) 256) fresh) =
      Ret (Some ErrorBufferFull) w' /\
    IsClosed w' = Ret true w'.
Proof.
  assert (Hr : reachable (run (repeat (CallSendBinary 0 [x2a]) 256) fresh))
    by (apply reachable_run, reachable_fresh).
  split; [exact Hr|].
  split; [vm_compute; reflexivity|].
  split; [vm_compute; reflexivity|].
  apply (@SendBinary_full_closes _ 7 [x2b] Hr); vm_compute; reflexivity.
Defined.

(** C10. Once [IsClosed] has returned true on a reachable connection, it
    returns true after any further actions: no call of the facade, step of
    a pump or move of the environment opens the connection again. *)
Theorem IsClosed_monotone (w : World) (acts : list Action) :
  reachable w ->
  IsClosed w = Ret true w ->
  IsClosed (run acts w) = Ret true (run acts w).
Proof.
  intros Hr Hc. apply reachable_Inv in Hr.
  rewrite IsClosed_spec in Hc by assumption.
  assert (Ho : closeOnce (self w) = true) by (rewrite <- (inv_signal Hr); congruence).
  apply Inv_closed_IsClosed; [now apply run_Inv | now apply run_closeOnce].
Qed.

Lemma IsClosed_monotone_witness :
  reachable (run [CallClose] fresh) /\
  IsClosed (run [CallClose] fresh) = Ret true (run [CallClose] fresh) /\
  IsClosed (run [CallSendBinary 1 [x01]; EnterWritePump; StepWritePump 0 false; CallClose]
              (run [CallClose] fresh)) =
  Ret true (run [CallSendBinary 1 [x01]; EnterWritePump; StepWritePump 0 false; CallClose]
              (run [CallClose] fresh)).
Proof.
  assert (Hr : reachable (run [CallClose] fresh))
    by (apply reachable_run, reachable_fresh).
  split; [exact Hr|].
  split; [vm_compute; reflexivity|].
  apply (@IsClosed_monotone _ _ Hr). vm_compute; reflexivity.
Defined.

(** ** C6, C7: the inbound pump *)

Lemma IsUnexpectedCloseError_spec (err : error) :
  IsUnexpectedCloseError err [CloseGoingAway; CloseAbnormalClosure] = true <->
  exists code text, err = CloseError code text /\ code <> 1001%Z /\ code <> 1006%Z.
Proof.
  unfold CloseGoingAway, CloseAbnormalClosure. split.
  - destruct err as [msg | code text | msg]; simpl; try discriminate.
    intros Hn. exists code, text. split; [reflexivity|].
    destruct (Z.eqb_spec code 1001); [discriminate|].
    destruct (Z.eqb_spec code 1006); [discriminate|]. auto.
  - intros (code & text & -> & H1 & H2). simpl.
    destruct (Z.eqb_spec code 1001); [contradiction|].
    destruct (Z.eqb_spec code 1006); [contradiction|]. reflexivity.
Qed.

(** C6, as stated, fails: a read that ends on an exceeded deadline is not a
    close error, and the pump prints nothing for it. *)
Lemma readPump_timeout_not_logged :
  logged (trace (run [EnterReadPump;
                      StepReadPump (InError (TransportError "i/o timeout"))] fresh)) = [] /\
  rpc (run [EnterReadPump;
            StepReadPump (InError (TransportError "i/o timeout"))] fresh) = RReturned.
Proof. split; reflexivity. Qed.

(** C6, amended. On every read error the loop of the inbound pump ends and
    the pump returns through [Close], so that the connection is closed.  The
    error is printed, by the one logger there is, exactly when it is a close
    error whose code is neither 1001 (going away) nor 1006 (abnormal
    closure); a close with one of these two codes and any error that is not
    a close error print nothing. *)
Theorem readPump_read_error (w : World) (err : error) :
  reachable w ->
  rpc w = RLoop ->
  exists w',
    readPump_step (InError err) w = Ret tt w' /\
    rpc w' = RReturned /\
    closeOnce (self w') = true /\
    IsClosed w' = Ret true w' /\
    logged (trace w') =
      logged (trace w) ++
      match err with
      | CloseError code _ =>
          if (code =? 1001)%Z || (code =? 1006)%Z then [] else [err]
      | _ => []
      end.
Proof.
  intros Hr Hpc. apply reachable_Inv in Hr.
  unfold readPump_step. rewrite Hpc.
  unfold bind, readPump_return, bind, goto_r.
  set (u := IsUnexpectedCloseError err [CloseGoingAway; CloseAbnormalClosure]).
  set (w1 := if u then log (EvLogPrintf err) w else w).
  assert (E1 : (if u then emit (EvLogPrintf err) else ret tt) w = Ret tt w1)
    by (subst w1; destruct u; reflexivity).
  assert (H1 : Inv w1).
  { subst w1. destruct u; [|assumption]. clear Hpc.
    open_world w. open_inv Hr. inv_goal. }
  assert (L1 : logged (trace w1) = logged (trace w) ++ if u then [err] else []).
  { subst w1. destruct u; simpl; [|now rewrite app_nil_r].
    now rewrite logged_app. }
  rewrite E1. destruct (Close_spec H1) as (w' & E & H' & Ho & _ & Et & _).
  rewrite E. eexists. split; [reflexivity|]. simpl.
  split; [reflexivity|]. split; [exact Ho|].
  split.
  - apply Inv_closed_IsClosed; [|exact Ho].
    clear -H' Ho. open_world w'. open_inv H'. inv_goal.
  - rewrite Et, logged_app, L1.
    replace (logged (if closeOnce (self w1) then []
                     else [EvCloseSignal; EvCloseQueue; EvConnClose inClose]))
      with (@nil error) by (destruct (closeOnce (self w1)); reflexivity).
    rewrite app_nil_r. f_equal. subst u.
    destruct err as [msg | code text | msg]; try reflexivity.
    unfold IsUnexpectedCloseError, CloseGoingAway, CloseAbnormalClosure. simpl.
    rewrite orb_false_r. now destruct (_ || _).
Qed.

Lemma readPump_read_error_witness :
  reachable (run [EnterReadPump] fresh) /\
  rpc (run [EnterReadPump] fresh) = RLoop /\
  exists w',
    readPump_step (InError (CloseError 1000 "done")) (run [EnterReadPump] fresh) = Ret tt w' /\
    rpc w' = RReturned /\
    closeOnce (self w') = true /\
    IsClosed w' = Ret true w' /\
    logged (trace w') = [CloseError 1000 "done"].
Proof.
  assert (Hr : reachable (run [EnterReadPump] fresh))
    by (apply reachable_run, reachable_fresh).
  split; [exact Hr|]. split; [reflexivity|].
  apply (@readPump_read_error _ (CloseError 1000 "done") Hr). reflexivity.
Defined.

(** C7. On entry the inbound pump sets the read deadline of the transport
    to the current time plus [pongWait] and installs its pong handler; from
    then on, while the pump reads, each pong frame the transport observes
    sets the read deadline to the time of that frame plus [pongWait], and
    the pump goes on reading. *)
Theorem readPump_liveness_deadline (w : World) :
  reachable w ->
  (rpc w = RIdle ->
   exists w',
     readPump_enter w = Ret tt w' /\ rpc w' = RLoop /\ now w' = now w /\
     readDeadline (conn (self w')) = Some (now w + pongWait)%Z /\
     pongHandler (conn (self w')) = resetReadDeadline) /\
  (rpc w = RLoop ->
   forall appData,
   exists w',
     readPump_step (InPong appData) w = Ret tt w' /\ rpc w' = RLoop /\ now w' = now w /\
     readDeadline (conn (self w')) = Some (now w + pongWait)%Z /\
     pongHandler (conn (self w')) = resetReadDeadline).
Proof.
  intros Hr. apply reachable_Inv in Hr. split; intros Hpc.
  - unfold readPump_enter. rewrite Hpc. eexists. split; [reflexivity|].
    repeat split.
  - intros appData. unfold readPump_step, call_pongHandler. rewrite Hpc.
    unfold bind at 1. rewrite (inv_pong Hr Hpc).
    eexists. split; [reflexivity|]. repeat split; simpl; auto.
    exact (inv_pong Hr Hpc).
Qed.

Lemma readPump_liveness_deadline_witness :
  reachable (run [EnterReadPump; EnvStep (Elapse 7000000000)] fresh) /\
  rpc (run [EnterReadPump; EnvStep (Elapse 7000000000)] fresh) = RLoop /\
  exists w',
    readPump_step (InPong "") (run [EnterReadPump; EnvStep (Elapse 7000000000)] fresh) =
      Ret tt w' /\
    readDeadline (conn (self w')) = Some 17000000000%Z.
Proof.
  assert (Hr : reachable (run [EnterReadPump; EnvStep (Elapse 7000000000)] fresh))
    by (apply reachable_run, reachable_fresh).
  split; [exact Hr|]. split; [reflexivity|].
  destruct (proj2 (@readPump_liveness_deadline _ Hr) eq_refl ""%string)
    as (w' & E & _ & _ & Hd & _).
  exists w'. split; [exact E|]. exact Hd.
Defined.

(** ** C8: how the outbound pump ends *)

Lemma snoc2 {A} (l : list A) (a b : A) : (l ++ [a]) ++ [b] = l ++ [a; b].
Proof. now rewrite <- app_assoc. Qed.

Lemma writePump_step_returns (pick : nat) (fail : bool) (w : World) :
  wpc w <> WReturned ->
  wpc (world_of (writePump_step pick fail w)) = WReturned ->
  stopped (ticker (world_of (writePump_step pick fail w))) = true /\
  exists pre,
    trace (world_of (writePump_step pick fail w)) =
    pre ++ [EvTickerStop; EvConnClose inWritePump].
Proof.
  intros Hn. unfold writePump_step.
  destruct (wpc w) as [| | |[|n]|] eqn:Hpc; simpl; try congruence.
  - destruct (select pick _) as [[|[|i]]|] eqn:Hsel; simpl; try congruence; clear Hsel;
      open_world w; unfold_ops; simpl in *; subst.
    + destruct sb as [|m q]; simpl;
        [destruct scl; simpl | destruct fail; simpl]; try discriminate;
        intros _; (split; [reflexivity|]); unfold log; simpl;
        eexists; apply snoc2.
    + destruct tb as [|k q]; simpl;
        [destruct tcl; simpl|]; try (destruct fail; simpl); try discriminate;
        intros _; (split; [reflexivity|]); unfold log; simpl;
        eexists; apply snoc2.
    + destruct cb as [|k q]; simpl; [destruct ccl; simpl|]; try discriminate;
        intros _; (split; [reflexivity|]); unfold log; simpl; eexists; apply snoc2.
  - open_world w; unfold_ops; simpl in *; subst.
    destruct fail; simpl; try discriminate.
    intros _; (split; [reflexivity|]); unfold log; simpl; eexists; apply snoc2.
  - open_world w; unfold_ops; simpl in *; subst.
    destruct sb as [|m q]; simpl; [destruct scl; simpl|]; discriminate.
Qed.

(** C8. At its select, when the pump takes the queue case and the queue is
    closed and empty, it sets the write deadline to the current time plus
    [writeWait], writes a close frame (whether or not that write fails) and
    returns.  And whenever a step of the pump makes it return, on any path,
    the ticker has been stopped and the last two calls are [ticker.Stop()]
    and [c.conn.Close()]. *)
Theorem writePump_termination (w : World) (pick : nat) (fail : bool) :
  wpc w <> WReturned ->
  (wpc w = WSelect ->
   select pick [Chan.recv_ready (send (self w));
                Chan.recv_ready (C (ticker w));
                Chan.recv_ready (closed (self w))] = Some 0 ->
   Chan.buf (send (self w)) = [] ->
   Chan.closed (send (self w)) = true ->
   exists w',
     writePump_step pick fail w = Ret tt w' /\
     wpc w' = WReturned /\
     trace w' = trace w ++ [EvSetWriteDeadline (now w + writeWait);
                            EvWriteMessage CloseMessage [];
                            EvTickerStop;
                            EvConnClose inWritePump]) /\
  (wpc (world_of (writePump_step pick fail w)) = WReturned ->
   stopped (ticker (world_of (writePump_step pick fail w))) = true /\
   exists pre,
     trace (world_of (writePump_step pick fail w)) =
     pre ++ [EvTickerStop; EvConnClose inWritePump]).
Proof.
  intros Hn. split; [|now apply writePump_step_returns].
  intros Hpc Hsel Hb Hc. unfold writePump_step. rewrite Hpc, Hsel.
  clear Hsel Hn. open_world w. unfold_ops. simpl in *. subst. simpl.
  eexists. split; [reflexivity|]. split; [reflexivity|].
  unfold log; simpl. now rewrite <- !app_assoc.
Qed.

Lemma writePump_termination_witness :
  wpc (run [EnterWritePump; CallClose] fresh) <> WReturned /\
  exists w',
    writePump_step 0 true (run [EnterWritePump; CallClose] fresh) = Ret tt w' /\
    wpc w' = WReturned /\
    trace w' = [EvCloseSignal; EvCloseQueue; EvConnClose inClose;
                EvSetWriteDeadline 5000000000; EvWriteMessage 8 [];
                EvTickerStop; EvConnClose inWritePump].
Proof.
  assert (Hn : wpc (run [EnterWritePump; CallClose] fresh) <> WReturned)
    by (vm_compute; discriminate).
  split; [exact Hn|].
  apply (proj1 (@writePump_termination (run [EnterWritePump; CallClose] fresh) 0 true Hn));
    reflexivity.
Defined.

(** ** C9: the origin check *)

(** C9. The [CheckOrigin] function of the package's upgrader returns true
    on every request, so the upgrader never refuses a request for its
    origin: the outcome of [Upgrader.Upgrade] is that of the rest of the
    handshake. *)
Theorem upgrader_CheckOrigin_always (r : Request) :
  CheckOrigin upgrader r = true /\
  forall handshake, Upgrader_Upgrade upgrader r handshake = handshake.
Proof. split; reflexivity. Qed.

(** ** C4: the queue is first in, first out *)

Lemma fifo_invariant (w0 : World) (acts : list Action) :
  Inv w0 ->
  written (trace w0) = [] -> Chan.buf (send (self w0)) = [] ->
  Inv (run acts w0) /\
  (wpc (run acts w0) <> WReturned ->
   written (trace (run acts w0)) ++ Chan.buf (send (self (run acts w0))) =
   accepted acts w0) /\
  (exists rest, written (trace (run acts w0)) ++ rest = accepted acts w0).
Proof.
  intros H0 Ew Eb. induction acts as [|a acts IH] using rev_ind.
  - simpl. rewrite Ew, Eb. split; [exact H0|]. split; [reflexivity|].
    now exists (@nil bytes).
  - destruct IH as (H & Halive & rest & Hpre).
    rewrite run_app, accepted_app. simpl. rewrite app_nil_r.
    set (w := run acts w0) in *.
    pose proof (exec_Step a H) as S.
    assert (Hback : wpc (exec a w) <> WReturned -> wpc w <> WReturned).
    { intros Hn Hw. now apply Hn, (st_wret S). }
    split; [now apply exec_Inv|]. split.
    + intros Hn. rewrite (st_fifo S Hn), app_assoc. f_equal. auto.
    + destruct (st_prefix S) as (d & rest0 & Ed & Eq).
      destruct (wpc w) eqn:Hpc.
      5: { destruct (st_wret S Hpc) as [_ Et]. exists (rest ++ accepted1 a w).
           now rewrite Et, app_assoc, Hpre. }
      all: exists (rest0 ++ accepted1 a w);
        rewrite Ed, app_assoc, <- (app_assoc _ d rest0), <- Eq;
        rewrite Halive by (rewrite ?Hpc; discriminate); reflexivity.
Qed.

Lemma run_cons (a : Action) (acts : list Action) (w : World) :
  run (a :: acts) w = run acts (exec a w).
Proof. reflexivity. Qed.

Lemma run_nil (w : World) : run [] w = w.
Proof. reflexivity. Qed.

Lemma drain_loop (n : nat) :
  forall w, Inv w -> wpc w = WDrain n -> n = List.length (Chan.buf (send (self w))) ->
  let w' := run (repeat (StepWritePump 0 false) n) w in
  Inv w' /\ wpc w' = WDrain 0 /\ Chan.buf (send (self w')) = [] /\
  written (trace w') = written (trace w) ++ Chan.buf (send (self w)).
Proof.
  induction n as [|n IH]; intros w H Hpc Hn; cbv zeta; cbn [repeat];
    rewrite ?run_cons.
  - simpl. destruct (Chan.buf (send (self w))); [|discriminate].
    rewrite app_nil_r. auto.
  - assert (H1 : Inv (exec (StepWritePump 0 false) w)) by now apply exec_Inv.
    destruct (Chan.buf (send (self w))) as [|m q] eqn:Eb; [discriminate|].
    injection Hn as Hn.
    assert (E : wpc (exec (StepWritePump 0 false) w) = WDrain n /\
                Chan.buf (send (self (exec (StepWritePump 0 false) w))) = q /\
                written (trace (exec (StepWritePump 0 false) w)) = written (trace w) ++ [m]).
    { clear IH H1. simpl. unfold writePump_step. rewrite Hpc.
      open_world w. unfold_ops. simpl in *. subst. simpl.
      unfold log; simpl. now rewrite written_app. }
    destruct E as (E1 & E2 & E3).
    destruct (IH _ H1 E1) as (Ha & Hb & Hc & Hd); [now rewrite E2|].
    split; [exact Ha|]. split; [exact Hb|]. split; [exact Hc|].
    rewrite Hd, E2, E3. now rewrite <- app_assoc.
Qed.

Lemma step_queue_case (w : World) (m : bytes) (q : list bytes) :
  wpc w = WSelect -> Chan.buf (send (self w)) = m :: q ->
  let w1 := exec (StepWritePump 0 false) w in
  wpc w1 = WLen /\ Chan.buf (send (self w1)) = q /\
  written (trace w1) = written (trace w) ++ [m].
Proof.
  intros Hpc Eb w1.
  assert (E : w1 = world_of (writePump_step 0 false w)) by reflexivity.
  unfold writePump_step in E. rewrite Hpc in E.
  unfold Chan.recv_ready at 1 in E. rewrite Eb, select_first in E.
  clearbody w1. open_world w. unfold_ops. simpl in *. subst. simpl.
  unfold log; simpl. rewrite !written_app. simpl. now rewrite !app_nil_r.
Qed.

Lemma step_len (w : World) :
  wpc w = WLen ->
  let w1 := exec (StepWritePump 0 false) w in
  wpc w1 = WDrain (List.length (Chan.buf (send (self w)))) /\
  Chan.buf (send (self w1)) = Chan.buf (send (self w)) /\
  written (trace w1) = written (trace w).
Proof.
  intros Hpc w1.
  assert (E : w1 = world_of (writePump_step 0 false w)) by reflexivity.
  unfold writePump_step in E. rewrite Hpc in E.
  clearbody w1. subst w1. simpl. auto.
Qed.

Lemma step_writer_close (w : World) :
  wpc w = WDrain 0 ->
  let w1 := exec (StepWritePump 0 false) w in
  wpc w1 = WSelect /\
  Chan.buf (send (self w1)) = Chan.buf (send (self w)) /\
  written (trace w1) = written (trace w).
Proof.
  intros Hpc w1.
  assert (E : w1 = world_of (writePump_step 0 false w)) by reflexivity.
  unfold writePump_step in E. rewrite Hpc in E.
  clearbody w1. subst w1. unfold_ops. simpl. unfold log; simpl.
  rewrite written_app. simpl. now rewrite app_nil_r.
Qed.

Lemma writePump_drains (w : World) (m : bytes) (q : list bytes) :
  Inv w -> wpc w = WSelect -> Chan.buf (send (self w)) = m :: q ->
  let w' := run (repeat (StepWritePump 0 false) (3 + List.length q)) w in
  wpc w' = WSelect /\ Chan.buf (send (self w')) = [] /\
  written (trace w') = written (trace w) ++ m :: q.
Proof.
  intros H Hpc Eb. cbv zeta.
  replace (3 + List.length q) with (2 + (List.length q + 1)) by lia.
  rewrite !repeat_app, !run_app. cbn [repeat]. rewrite !run_cons, !run_nil.
  destruct (step_queue_case w Hpc Eb) as (A1 & A2 & A3).
  set (w1 := exec (StepWritePump 0 false) w) in *.
  assert (H1 : Inv w1) by now apply exec_Inv.
  destruct (step_len w1 A1) as (B1 & B2 & B3).
  set (w2 := exec (StepWritePump 0 false) w1) in *.
  assert (H2 : Inv w2) by now apply exec_Inv.
  rewrite A2 in B1, B2.
  destruct (drain_loop H2 B1) as (H3 & F1 & F2 & F3); [now rewrite B2|].
  set (w3 := run (repeat (StepWritePump 0 false) (List.length q)) w2) in *.
  destruct (step_writer_close w3 F1) as (G1 & G2 & G3).
  split; [exact G1|]. split; [congruence|].
  rewrite G3, F3, B3, A3, B2, <- app_assoc. reflexivity.
Qed.

(** C4. Run a fresh connection through any actions: calls of the facade by
    any goroutines, steps of both pumps, ticks.  As long as the outbound
    pump has not returned, the chunks it has handed to the writer, followed
    by the messages still queued, are exactly the data of the [SendBinary]
    calls that returned nil, in the order of those calls: nothing is
    reordered, duplicated or dropped, also across the draining of the queue
    into one writer.  Once the pump has returned, what was written is a
    prefix of what was accepted.  And when the pump is at its select with
    messages queued, running it alone with the queue polled first and no
    transport error writes all of them: the written chunks are then the
    accepted messages and the queue is empty. *)
Theorem writePump_fifo (t : Conn) (h : option MessageHandler) (t0 : Z)
    (acts : list Action) :
  let w0 := world0 (newConnection t h) t0 in
  let w := run acts w0 in
  (wpc w <> WReturned ->
   written (trace w) ++ Chan.buf (send (self w)) = accepted acts w0) /\
  (exists rest, written (trace w) ++ rest = accepted acts w0) /\
  (wpc w = WSelect -> Chan.buf (send (self w)) <> [] ->
   let w' := run (repeat (StepWritePump 0 false)
                    (2 + List.length (Chan.buf (send (self w))))) w in
   written (trace w') = accepted acts w0 /\ Chan.buf (send (self w')) = []).
Proof.
  intros w0 w.
  destruct (@fifo_invariant w0 acts (Inv_world0 t h t0) eq_refl eq_refl)
    as (H & Halive & Hpre).
  fold w in H, Halive, Hpre.
  split; [exact Halive|]. split; [exact Hpre|].
  intros Hpc Hne.
  destruct (Chan.buf (send (self w))) as [|m q] eqn:Eb; [contradiction|].
  destruct (writePump_drains H Hpc Eb) as (_ & Hb & Hw).
  replace (2 + List.length (m :: q)) with (3 + List.length q) by (simpl; lia).
  split; [|exact Hb].
  rewrite Hw. apply Halive. rewrite Hpc. discriminate.
Qed.

(** ** C1: [Upgrade] runs the pumps itself *)

Lemma writePump_loop_run (script : list (Env + nat * bool)) :
  forall w, exists acts, world_of (writePump_loop script w) = run acts w.
Proof.
  induction script as [|[e | [pick fail]] rest IH]; intros w; simpl.
  - exists []. now destruct (wpc w).
  - destruct (IH (env_step e w)) as (acts & E).
    destruct (wpc w); try (exists (EnvStep e :: acts); exact E).
    now exists [].
  - assert (G : exists acts,
               world_of match writePump_step pick fail w with
                        | Ret _ w' | Block w' => writePump_loop rest w'
                        | Panic msg w' => Panic msg w'
                        end = run acts w).
    { destruct (writePump_step pick fail w) as [u w' | msg w' | w'] eqn:Es.
      - destruct (IH w') as (acts & E). exists (StepWritePump pick fail :: acts).
        simpl. now rewrite Es.
      - exists [StepWritePump pick fail]. simpl. now rewrite Es.
      - destruct (IH w') as (acts & E). exists (StepWritePump pick fail :: acts).
        simpl. now rewrite Es. }
    destruct (wpc w); auto. now exists [].
Qed.

Lemma writePump_loop_Ret (script : list (Env + nat * bool)) :
  forall w u w', writePump_loop script w = Ret u w' -> wpc w' = WReturned.
Proof.
  induction script as [|[e | [pick fail]] rest IH]; intros w u w'; simpl.
  - destruct (wpc w) eqn:Hpc; try discriminate. now intros [= _ <-].
  - destruct (wpc w) eqn:Hpc; try (apply IH). now intros [= _ <-].
  - assert (G : match writePump_step pick fail w with
                | Ret _ w1 | Block w1 => writePump_loop rest w1
                | Panic msg w1 => Panic msg w1
                end = Ret u w' -> wpc w' = WReturned).
    { destruct (writePump_step pick fail w); try discriminate; apply IH. }
    destruct (wpc w) eqn:Hpc; auto. now intros [= _ <-].
Qed.

Lemma readPump_loop_run (script : list (Env + ReadEvent)) :
  forall w, exists acts, world_of (readPump_loop script w) = run acts w.
Proof.
  induction script as [|[e | ev] rest IH]; intros w; simpl.
  - exists []. now destruct (rpc w).
  - destruct (IH (env_step e w)) as (acts & E).
    destruct (rpc w); try (exists (EnvStep e :: acts); exact E).
    now exists [].
  - assert (G : exists acts,
               world_of match readPump_step ev w with
                        | Ret _ w' | Block w' => readPump_loop rest w'
                        | Panic msg w' => Panic msg w'
                        end = run acts w).
    { destruct (readPump_step ev w) as [u w' | msg w' | w'] eqn:Es.
      - destruct (IH w') as (acts & E). exists (StepReadPump ev :: acts).
        simpl. now rewrite Es.
      - exists [StepReadPump ev]. simpl. now rewrite Es.
      - destruct (IH w') as (acts & E). exists (StepReadPump ev :: acts).
        simpl. now rewrite Es. }
    destruct (rpc w); auto. now exists [].
Qed.

Lemma readPump_loop_Ret (script : list (Env + ReadEvent)) :
  forall w u w', readPump_loop script w = Ret u w' -> rpc w' = RReturned.
Proof.
  induction script as [|[e | ev] rest IH]; intros w u w'; simpl.
  - destruct (rpc w) eqn:Hpc; try discriminate. now intros [= _ <-].
  - destruct (rpc w) eqn:Hpc; try (apply IH). now intros [= _ <-].
  - assert (G : match readPump_step ev w with
                | Ret _ w1 | Block w1 => readPump_loop rest w1
                | Panic msg w1 => Panic msg w1
                end = Ret u w' -> rpc w' = RReturned).
    { destruct (readPump_step ev w); try discriminate; apply IH. }
    destruct (rpc w) eqn:Hpc; auto. now intros [= _ <-].
Qed.

Lemma env_step_quiet (e : Env) (w : World) : quiet w -> quiet (env_step e w).
Proof.
  intros Q. destruct e; simpl; [|exact Q].
  destruct (stopped (ticker w)); [exact Q|].
  destruct (Chan.send _ _); exact Q.
Qed.

Lemma writePump_step_quiet (pick : nat) (w : World) :
  quiet w ->
  exists w', (writePump_step pick false w = Ret tt w' \/
              writePump_step pick false w = Block w') /\ quiet w'.
Proof.
  intros (Hpc & Hr & Hb & Hc & Hsb & Hsc).
  remember (writePump_step pick false w) as r eqn:Er.
  unfold writePump_step in Er. rewrite Hpc in Er.
  unfold Chan.recv_ready at 1 3 in Er. rewrite Hb, Hc, Hsb, Hsc in Er.
  destruct (select pick _) as [[|[|[|i]]]|] eqn:Hsel;
    try (apply select_Some_ready in Hsel; simpl in Hsel; try discriminate Hsel).
  - clear Hsel. open_world w. unfold_ops. unfold quiet. simpl in *. subst.
    destruct tb as [|k q]; simpl.
    + destruct tcl; simpl; eexists; (split; [auto|]); simpl; auto 10.
    + eexists; (split; [left; reflexivity|]); simpl; auto 10.
  - now destruct i.
  - subst r. exists w. split; [now right|]. unfold quiet; auto 10.
Qed.

Lemma writePump_loop_quiet (script : list (Env + nat * bool)) :
  forall w, quiet w -> no_write_fails script = true ->
  exists w', writePump_loop script w = Block w' /\ quiet w'.
Proof.
  induction script as [|[e | [pick fail]] rest IH]; intros w Q Hs; simpl.
  - pose proof Q as (Hpc & _). rewrite Hpc. now exists w.
  - pose proof Q as (Hpc & _). rewrite Hpc.
    apply IH; [now apply env_step_quiet | exact Hs].
  - pose proof Q as (Hpc & _). rewrite Hpc.
    simpl in Hs. destruct fail; [discriminate|].
    destruct (writePump_step_quiet pick Q) as (w1 & [E | E] & Q1);
      rewrite E; now apply IH.
Qed.

Lemma writePump_enter_Ret (w : World) :
  writePump_enter w = Ret tt (exec EnterWritePump w).
Proof. unfold exec, writePump_enter. now destruct (wpc w). Qed.

Lemma readPump_enter_Ret (w : World) :
  readPump_enter w = Ret tt (exec EnterReadPump w).
Proof. unfold exec, readPump_enter. now destruct (rpc w). Qed.

(** C1. [Upgrade] starts no goroutine.  Its two deferred calls run on the
    calling goroutine, [writePump] first and [readPump] after it, and the
    caller gets the connection only when both have returned: whenever
    [Upgrade] returns a connection, both pumps are over and [IsClosed]
    already returns true on it.  And as long as no write of the outbound
    pump fails, [Upgrade] has not returned: the caller is still inside
    [writePump], and [readPump] has not been entered. *)
Theorem Upgrade_runs_pumps_inline (r : Request) (t : Conn)
    (h : option MessageHandler) (t0 : Z)
    (wscript : list (Env + nat * bool)) (rscript : list (Env + ReadEvent)) :
  (forall w,
     Upgrade r (inl t) h t0 wscript rscript = UpgradeReturned w ->
     wpc w = WReturned /\ rpc w = RReturned /\ IsClosed w = Ret true w) /\
  (no_write_fails wscript = true ->
   exists w,
     Upgrade r (inl t) h t0 wscript rscript = UpgradeRunning w /\
     wpc w = WSelect /\ rpc w = RIdle).
Proof.
  unfold Upgrade. cbn [Upgrader_Upgrade upgrader CheckOrigin].
  set (w0 := world0 (newConnection t h) t0).
  assert (H0 : Inv w0) by apply Inv_world0.
  unfold writePump, bind. rewrite writePump_enter_Ret.
  set (w0' := exec EnterWritePump w0).
  assert (H0' : Inv w0') by now apply exec_Inv.
  split.
  - intros w.
    destruct (writePump_loop wscript w0') as [u w1 | msg w1 | w1] eqn:Ew;
      [ | destruct (readPump rscript w1); discriminate | discriminate ].
    pose proof (writePump_loop_Ret _ _ Ew) as Hw1.
    destruct (writePump_loop_run wscript w0') as (acts1 & E1).
    rewrite Ew in E1. simpl in E1.
    assert (H1 : Inv w1) by (rewrite E1; now apply run_Inv).
    unfold readPump, bind. rewrite readPump_enter_Ret.
    set (w1' := exec EnterReadPump w1).
    assert (H1' : Inv w1') by now apply exec_Inv.
    assert (Hw1' : wpc w1' = WReturned)
      by now apply (st_wret (exec_Step EnterReadPump H1)).
    destruct (readPump_loop rscript w1') as [u2 w2 | msg w2 | w2] eqn:Er;
      try discriminate.
    intros [= <-].
    pose proof (readPump_loop_Ret _ _ Er) as Hr2.
    destruct (readPump_loop_run rscript w1') as (acts2 & E2).
    rewrite Er in E2. simpl in E2.
    assert (H2 : Inv w2) by (rewrite E2; now apply run_Inv).
    split; [rewrite E2; now apply run_wpc_returned|].
    split; [exact Hr2|].
    apply Inv_closed_IsClosed; [exact H2|]. now apply (inv_read_returned H2).
  - intros Hs.
    assert (Q : quiet w0') by (unfold quiet; simpl; auto 10).
    destruct (writePump_loop_quiet wscript Q Hs) as (w1 & E & Hpc & Hr & _).
    rewrite E. now exists w1.
Qed.

Lemma Upgrade_runs_pumps_inline_witness :
  (exists w,
     Upgrade (mkRequest "http://evil.example" "game.example") (inl conn0) (Some appHandler) 0
       [inl Tick; inr (0, false); inl (Elapse 9000000000); inl Tick; inr (0, true)]
       [inr (InError (TransportError "use of closed network connection"))]
     = UpgradeReturned w /\
     wpc w = WReturned /\ rpc w = RReturned /\ IsClosed w = Ret true w) /\
  (exists w,
     Upgrade (mkRequest "http://evil.example" "game.example") (inl conn0) (Some appHandler) 0
       [inl Tick; inr (0, false); inl (Elapse 9000000000); inl Tick; inr (0, false)]
       [inr (InError (TransportError "use of closed network connection"))]
     = UpgradeRunning w /\
     wpc w = WSelect /\ rpc w = RIdle).
Proof.
  split.
  - eexists. split; [vm_compute; reflexivity|].
    apply (proj1 (Upgrade_runs_pumps_inline
                    (mkRequest "http://evil.example" "game.example") conn0 (Some appHandler) 0
                    [inl Tick; inr (0, false); inl (Elapse 9000000000); inl Tick; inr (0, true)]
                    [inr (InError (TransportError "use of closed network connection"))])).
    vm_compute; reflexivity.
  - apply (proj2 (Upgrade_runs_pumps_inline
                    (mkRequest "http://evil.example" "game.example") conn0 (Some appHandler) 0
                    [inl Tick; inr (0, false); inl (Elapse 9000000000); inl Tick; inr (0, false)]
                    [inr (InError (TransportError "use of closed network connection"))])).
    reflexivity.
Defined.

(** ** The outbound pump does not panic *)

Lemma writePump_step_no_panic (pick : nat) (fail : bool) (w : World) :
  forall msg w', writePump_step pick fail w <> Panic msg w'.
Proof.
  intros msg w'. unfold writePump_step.
  destruct (wpc w) as [| | |[|n]|]; try discriminate.
  - destruct (select pick _) as [[|[|i]]|]; try discriminate;
      open_world w; unfold_ops; simpl.
    + destruct sb; simpl; [destruct scl; simpl|]; try discriminate;
        destruct fail; discriminate.
    + destruct tb; simpl; [destruct tcl; simpl|]; try discriminate;
        destruct fail; discriminate.
    + destruct cb; simpl; [destruct ccl; simpl|]; discriminate.
  - open_world w; unfold_ops; simpl. destruct fail; discriminate.
  - open_world w; unfold_ops; simpl.
    destruct sb; simpl; [destruct scl; simpl|]; discriminate.
Qed.

(** * Further properties *)

(** ** The facade *)




(** X2. [IsClosed] leaves the connection as it is, and it returns true
    exactly when the teardown of [Close] has run: a connection is closed by
    [Close] and by nothing else. *)
Theorem IsClosed_iff_teardown (w : World) :
  reachable w ->
  exists b,
    IsClosed w = Ret b w /\
    (b = true <-> count is_signal (trace w) = 1) /\
    (b = false <-> count is_signal (trace w) = 0).
Proof.
  intros Hr. apply reachable_Inv in Hr.
  exists (Chan.closed (closed (self w))).
  split; [now apply IsClosed_spec|].
  destruct (inv_teardown Hr) as (Es & _).
  rewrite (inv_signal Hr). rewrite Es.
  destruct (closeOnce (self w)); split; split; intros; auto; discriminate.
Qed.

Lemma IsClosed_iff_teardown_witness :
  reachable (run [CallSendBinary 0 [x01]; CallClose] fresh) /\
  exists b,
    IsClosed (run [CallSendBinary 0 [x01]; CallClose] fresh) =
      Ret b (run [CallSendBinary 0 [x01]; CallClose] fresh) /\
    (b = true <-> count is_signal (trace (run [CallSendBinary 0 [x01]; CallClose] fresh)) = 1) /\
    (b = false <-> count is_signal (trace (run [CallSendBinary 0 [x01]; CallClose] fresh)) = 0).
Proof.
  assert (Hr : reachable (run [CallSendBinary 0 [x01]; CallClose] fresh))
    by (apply reachable_run, reachable_fresh).
  split; [exact Hr|]. exact (@IsClosed_iff_teardown _ Hr).
Defined.

(** X3. Memory is bounded: whatever the callers, the pumps and the
    environment do, the outbound queue never holds more than its 256 slots,
    and nothing is ever sent on the shutdown signal. *)
Theorem queue_bounded (w : World) :
  reachable w ->
  Chan.len (send (self w)) <= 256 /\
  Chan.cap (send (self w)) = 256 /\
  Chan.buf (closed (self w)) = [].
Proof.
  intros Hr. apply reachable_Inv in Hr.
  split; [apply (inv_len Hr)|]. split; [apply (inv_cap Hr) | apply (inv_signal_empty Hr)].
Qed.

Lemma queue_bounded_witness :
  reachable (run (repeat (CallSendBinary 0 [x2a]) 300) fresh) /\
  Chan.len (send (self (run (repeat (CallSendBinary 0 [x2a]) 300) fresh))) <= 256.
Proof.
  assert (Hr : reachable (run (repeat (CallSendBinary 0 [x2a]) 300) fresh))
    by (apply reachable_run, reachable_fresh).
  split; [exact Hr|]. exact (proj1 (@queue_bounded _ Hr)).
Defined.

(** ** The outbound pump: heartbeat, shutdown, batching *)

Lemma select_only_second (pick : nat) : select pick [false; true; false] = Some 1.
Proof. unfold select. cbn [ready_cases List.length]. now rewrite Nat.mod_1_r. Qed.

(** X4. The heartbeat.  On an open connection with an empty queue, when a
    tick is pending the pump at its select can only take the ticker case:
    it consumes the tick, sets the write deadline to the current time plus
    [writeWait] and writes one ping frame with no payload.  When that write
    succeeds the pump is back at its select and has called nothing else;
    when it fails the pump returns through its deferred calls. *)
Theorem writePump_heartbeat (w : World) (pick : nat) (fail : bool) (k : Z) (ks : list Z) :
  reachable w ->
  wpc w = WSelect ->
  IsClosed w = Ret false w ->
  Chan.buf (send (self w)) = [] ->
  Chan.buf (C (ticker w)) = k :: ks ->
  exists w',
    writePump_step pick fail w = Ret tt w' /\
    trace w' = trace w ++
               [EvSetWriteDeadline (now w + writeWait); EvWriteMessage PingMessage []] ++
               (if fail then [EvTickerStop; EvConnClose inWritePump] else []) /\
    wpc w' = (if fail then WReturned else WSelect) /\
    Chan.buf (C (ticker w')) = ks /\
    send (self w') = send (self w) /\
    IsClosed w' = Ret false w'.
Proof.
  intros Hr Hpc Hopen Hb Hk. apply reachable_Inv in Hr.
  rewrite IsClosed_spec in Hopen by assumption.
  assert (Hc : Chan.closed (closed (self w)) = false) by congruence. clear Hopen.
  pose proof (inv_signal Hr) as Ho. rewrite Hc in Ho.
  pose proof (inv_queue Hr) as Hq. rewrite <- Ho in Hq.
  pose proof (inv_signal_empty Hr) as He.
  unfold writePump_step. rewrite Hpc.
  unfold Chan.recv_ready. rewrite Hb, Hq, Hk, He, Hc, select_only_second.
  clear Hr. open_world w. unfold_ops. simpl in *. subst. simpl.
  destruct fail; simpl; (eexists; split; [reflexivity|]); unfold log; simpl;
    rewrite <- ?app_assoc; simpl; auto 10.
Qed.

Lemma writePump_heartbeat_witness :
  reachable (run [EnterWritePump; EnvStep (Elapse 9000000000); EnvStep Tick] fresh) /\
  exists w',
    writePump_step 3 false
      (run [EnterWritePump; EnvStep (Elapse 9000000000); EnvStep Tick] fresh) = Ret tt w' /\
    trace w' = [EvSetWriteDeadline 14000000000; EvWriteMessage 9 []] /\
    wpc w' = WSelect.
Proof.
  assert (Hr : reachable (run [EnterWritePump; EnvStep (Elapse 9000000000); EnvStep Tick] fresh))
    by (apply reachable_run, reachable_fresh).
  split; [exact Hr|].
  destruct (@writePump_heartbeat _ 3 false 9000000000%Z [] Hr)
    as (w' & E & Et & Ep & _); try reflexivity.
  exists w'. split; [exact E|]. split; [exact Et | exact Ep].
Defined.

(** X5. The shutdown signal.  Whenever the pump at its select takes the
    case of the closed signal, it returns at once: it stops its ticker and
    closes the transport, writes nothing (no close frame, no message), and
    leaves in the queue whatever was queued. *)
Theorem writePump_shutdown (w : World) (pick : nat) (fail : bool) :
  reachable w ->
  wpc w = WSelect ->
  select pick [Chan.recv_ready (send (self w));
               Chan.recv_ready (C (ticker w));
               Chan.recv_ready (closed (self w))] = Some 2 ->
  exists w',
    writePump_step pick fail w = Ret tt w' /\
    trace w' = trace w ++ [EvTickerStop; EvConnClose inWritePump] /\
    wpc w' = WReturned /\
    self w' = self w /\
    IsClosed w = Ret true w.
Proof.
  intros Hr Hpc Hsel. apply reachable_Inv in Hr.
  pose proof (select_Some_ready _ _ Hsel) as Hrdy. simpl in Hrdy.
  unfold Chan.recv_ready in Hrdy. rewrite (inv_signal_empty Hr) in Hrdy.
  rewrite IsClosed_spec by assumption.
  unfold writePump_step. rewrite Hpc, Hsel.
  pose proof (inv_signal_empty Hr) as He.
  clear Hr Hsel. open_world w. unfold_ops. simpl in *. subst. simpl.
  eexists. split; [reflexivity|]. unfold log; simpl.
  rewrite <- app_assoc. simpl. auto.
Qed.

Lemma writePump_shutdown_witness :
  reachable (run [EnterWritePump; CallSendBinary 0 [x01]; CallClose] fresh) /\
  exists w',
    writePump_step 1 false
      (run [EnterWritePump; CallSendBinary 0 [x01]; CallClose] fresh) = Ret tt w' /\
    trace w' = [EvCloseSignal; EvCloseQueue; EvConnClose inClose;
                EvTickerStop; EvConnClose inWritePump] /\
    wpc w' = WReturned /\
    Chan.buf (send (self w')) = [[x01]].
Proof.
  assert (Hr : reachable (run [EnterWritePump; CallSendBinary 0 [x01]; CallClose] fresh))
    by (apply reachable_run, reachable_fresh).
  split; [exact Hr|].
  destruct (@writePump_shutdown _ 1 false Hr) as (w' & E & Et & Ep & Es & _);
    try reflexivity.
  exists w'. split; [exact E|]. split; [exact Et|]. split; [exact Ep|].
  now rewrite Es.
Defined.




(** ** The outbound pump ends once the connection is closed *)

Lemma exec_ticker_open (a : Action) (w : World) :
  Chan.closed (C (ticker w)) = false ->
  Chan.closed (C (ticker (exec a w))) = false.
Proof.
  intros Ht. destruct a as [pick data | | | | pick fail | | ev | e]; simpl.
  - unfold SendBinary.
    destruct (select pick _) as [[|i]|]; open_world w; unfold_ops; simpl in *;
      repeat match goal with
             | |- context [if ?b then _ else _] => destruct b; simpl
             | |- context [match ?l with [] => _ | _ :: _ => _ end] => destruct l; simpl
             end; auto.
  - open_world w; unfold_ops; simpl in *;
      repeat match goal with
             | |- context [if ?b then _ else _] => destruct b; simpl
             end; auto.
  - open_world w; unfold IsClosed. destruct (select 0 _); unfold_ops; simpl in *;
      repeat match goal with
             | |- context [if ?b then _ else _] => destruct b; simpl
             | |- context [match ?l with [] => _ | _ :: _ => _ end] => destruct l; simpl
             end; auto.
  - open_world w; unfold_ops; simpl in *. destruct wp; simpl; auto.
  - unfold writePump_step.
    destruct (wpc w) as [| | |[|n]|]; auto.
    + destruct (select pick _) as [[|[|i]]|]; auto;
        open_world w; unfold_ops; simpl in *;
        repeat match goal with
               | |- context [if ?b then _ else _] => destruct b; simpl
               | |- context [match ?l with [] => _ | _ :: _ => _ end] => destruct l; simpl
               end; auto.
    + open_world w; unfold_ops; simpl in *. destruct fail; simpl; auto.
    + open_world w; unfold_ops; simpl in *.
      destruct sb; simpl; [destruct scl; simpl|]; auto.
  - open_world w; unfold_ops; simpl in *. destruct rp; simpl; auto.
  - unfold readPump_step. destruct (rpc w); auto.
    destruct ev; open_world w; unfold_ops; unfold_ops; simpl in *;
      repeat match goal with
             | |- context [if ?b then _ else _] => destruct b; simpl
             | |- context [match ?x with defaultPongHandler => _ | _ => _ end] =>
                 destruct x; simpl
             | |- context [match ?x with Some _ => _ | None => _ end] =>
                 destruct x; simpl
             end; auto.
  - destruct e; simpl; auto.
    destruct (stopped (ticker w)); auto.
    unfold Chan.send. rewrite Ht.
    destruct (_ <? _); simpl; auto.
Qed.

Lemma reachable_ticker_open (w : World) :
  reachable w -> Chan.closed (C (ticker w)) = false.
Proof.
  intros (t & h & t0 & acts & ->).
  induction acts as [|a acts IH] using rev_ind; [reflexivity|].
  rewrite run_app. simpl. now apply exec_ticker_open.
Qed.

Lemma closed_step_decreases (pick : nat) (fail : bool) (w : World) :
  Inv w -> closeOnce (self w) = true ->
  Chan.closed (C (ticker w)) = false ->
  wpc w <> WIdle -> wpc w <> WReturned ->
  let w' := exec (StepWritePump pick fail) w in
  closeOnce (self w') = true /\ wpc w' <> WIdle /\
  (wpc w' = WReturned \/ steps_left w' < steps_left w).
Proof.
  intros H Ho Ht Hi Hn w'.
  split; [subst w'; now apply (st_once (exec_Step _ H))|].
  subst w'. simpl. unfold writePump_step.
  destruct (wpc w) as [| | |[|n]|] eqn:Hpc; try congruence.
  - destruct (select pick _) as [[|[|[|i]]]|] eqn:Hsel.
    + clear Hsel. unfold steps_left. rewrite Hpc.
      open_world w. open_inv H. unfold_ops. simpl in *.
      destruct sb as [|m q]; simpl; [split; [discriminate | now left]|].
      destruct fail; simpl; (split; [discriminate|]); [now left | right; lia].
    + apply select_Some_ready in Hsel. simpl in Hsel.
      unfold steps_left. rewrite Hpc.
      open_world w. open_inv H. unfold_ops. simpl in *.
      destruct tb as [|k q]; simpl in *; [discriminate|].
      destruct fail; simpl; (split; [discriminate|]); [now left | right; lia].
    + clear Hsel. open_world w. open_inv H. unfold_ops. simpl in *.
      split; [discriminate | now left].
    + apply select_Some_ready in Hsel. simpl in Hsel. now destruct i.
    + apply select_None with (b := Chan.recv_ready (closed (self w))) in Hsel;
        [|simpl; auto].
      unfold Chan.recv_ready in Hsel.
      rewrite (inv_signal_empty H), (inv_signal H), Ho in Hsel. discriminate.
  - unfold steps_left. rewrite Hpc.
    open_world w. open_inv H. unfold_ops. simpl in *.
    split; [discriminate | right; lia].
  - unfold steps_left. rewrite Hpc.
    open_world w. open_inv H. unfold_ops. simpl in *.
    destruct fail; simpl; (split; [discriminate|]); [now left | right; lia].
  - unfold steps_left. rewrite Hpc.
    open_world w. open_inv H. unfold_ops. simpl in *.
    destruct sb as [|m q]; simpl in *; [lia|].
    split; [discriminate | right; lia].
Qed.

Lemma closed_pump_returns (steps : list (nat * bool)) :
  forall w,
    Inv w -> closeOnce (self w) = true ->
    Chan.closed (C (ticker w)) = false ->
    wpc w <> WIdle ->
    steps_left w <= List.length steps ->
    wpc (run (pump_steps steps) w) = WReturned.
Proof.
  induction steps as [|[pick fail] steps IH]; intros w H Ho Ht Hi Hle.
  - simpl in *. unfold steps_left in Hle.
    destruct (wpc w); simpl in Hle; try lia; congruence.
  - cbn [pump_steps map fst snd]. rewrite run_cons.
    fold (pump_steps steps).
    destruct (wpc w) eqn:Hpc; try congruence.
    4: { apply run_wpc_returned; [now apply exec_Inv|].
         now apply (st_wret (exec_Step _ H)). }
    all: destruct (@closed_step_decreases pick fail w H Ho Ht) as (Ho' & Hi' & Hd);
      try (rewrite Hpc; discriminate);
      (destruct Hd as [Hret | Hlt];
       [ apply run_wpc_returned; [now apply exec_Inv | exact Hret]
       | apply IH; auto using exec_Inv, exec_ticker_open; simpl in Hle; lia ]).
Qed.

(** X7. No goroutine is left behind by the outbound pump.  Once [Close] has
    run on a connection whose outbound pump is running, the pump cannot
    park: its select always has the closed signal to take.  Whatever its
    selects pick and whether its writes fail or not, it has returned after
    [steps_left] steps of its own: four per message still queued, one per
    pending tick, three for the iteration under way. *)
Theorem writePump_returns_after_Close (w : World) (steps : list (nat * bool)) :
  reachable w ->
  IsClosed w = Ret true w ->
  wpc w <> WIdle ->
  steps_left w <= List.length steps ->
  wpc (run (pump_steps steps) w) = WReturned.
Proof.
  intros Hr Hc Hi Hle.
  pose proof (reachable_ticker_open Hr) as Ht.
  apply reachable_Inv in Hr.
  rewrite IsClosed_spec in Hc by assumption.
  assert (Ho : closeOnce (self w) = true) by (rewrite <- (inv_signal Hr); congruence).
  now apply closed_pump_returns.
Qed.

Lemma writePump_returns_after_Close_witness :
  reachable (run [EnterWritePump; CallSendBinary 0 [x01]; CallSendBinary 0 [x02];
                  EnvStep Tick; CallClose] fresh) /\
  steps_left (run [EnterWritePump; CallSendBinary 0 [x01]; CallSendBinary 0 [x02];
                   EnvStep Tick; CallClose] fresh) = 10 /\
  wpc (run (pump_steps [(0, false); (0, false); (0, false); (0, false); (1, false);
                        (0, false); (0, false); (0, false); (0, false); (0, false)])
         (run [EnterWritePump; CallSendBinary 0 [x01]; CallSendBinary 0 [x02];
               EnvStep Tick; CallClose] fresh)) = WReturned.
Proof.
  assert (Hr : reachable (run [EnterWritePump; CallSendBinary 0 [x01];
                               CallSendBinary 0 [x02]; EnvStep Tick; CallClose] fresh))
    by (apply reachable_run, reachable_fresh).
  split; [exact Hr|]. split; [reflexivity|].
  apply (@writePump_returns_after_Close _ _ Hr).
  - reflexivity.
  - vm_compute. discriminate.
  - vm_compute. lia.
Defined.

(** ** Who calls the transport *)

Ltac trace_fin :=
  unfold log; simpl; rewrite ?filter_app; simpl; rewrite ?app_nil_r; auto.

Lemma Close_calls (w : World) (p : Event -> bool) :
  Inv w ->
  p EvCloseSignal = false -> p EvCloseQueue = false -> p (EvConnClose inClose) = false ->
  filter p (trace (world_of (Close w))) = filter p (trace w).
Proof.
  intros H P1 P2 P3.
  destruct (Close_spec H) as (w' & E & _ & _ & _ & Et & _).
  rewrite E. simpl. rewrite Et, filter_app.
  destruct (closeOnce (self w)); simpl; rewrite ?P1, ?P2, ?P3; now rewrite app_nil_r.
Qed.

Lemma facade_calls (p : Event -> bool) (a : Action) (w : World) :
  Inv w ->
  p EvCloseSignal = false -> p EvCloseQueue = false -> p (EvConnClose inClose) = false ->
  is_write_step a = false -> is_read_step a = false ->
  filter p (trace (exec a w)) = filter p (trace w).
Proof.
  intros H P1 P2 P3 Hw Hr.
  destruct a as [pick data | | | | pick fail | | ev | e]; simpl; try discriminate.
  - unfold SendBinary.
    destruct (select pick _) as [[|i]|].
    + open_world w; unfold_ops; simpl.
      destruct scl; simpl; auto. destruct (_ <? _); simpl; auto.
    + open_world w; unfold_ops; simpl.
      destruct cb; simpl; auto. destruct ccl; simpl; auto.
    + unfold bind, ret. pose proof (@Close_calls w p H P1 P2 P3) as E.
      destruct (Close w); exact E.
  - now apply Close_calls.
  - now rewrite IsClosed_spec.
  - open_world w; unfold_ops; simpl. destruct wp; simpl; auto.
  - destruct e; simpl; auto.
    destruct (stopped (ticker w)); auto. destruct (Chan.send _ _); auto.
Qed.

Lemma writePump_step_read_calls (pick : nat) (fail : bool) (w : World) :
  filter is_read_call (trace (world_of (writePump_step pick fail w))) =
  filter is_read_call (trace w).
Proof.
  unfold writePump_step.
  destruct (wpc w) as [| | |[|n]|]; auto.
  - destruct (select pick _) as [[|[|i]]|]; auto;
      open_world w; unfold_ops; simpl.
    + destruct sb; simpl; [destruct scl; simpl|destruct fail; simpl]; trace_fin.
    + destruct tb; simpl; [destruct tcl; simpl|]; try (destruct fail; simpl); trace_fin.
    + destruct cb; simpl; [destruct ccl; simpl|]; trace_fin.
  - open_world w; unfold_ops; simpl. destruct fail; simpl; trace_fin.
  - open_world w; unfold_ops; simpl.
    destruct sb; simpl; [destruct scl; simpl|]; trace_fin.
Qed.

Lemma readPump_write_calls (a : Action) (w : World) :
  Inv w -> is_read_step a = true ->
  filter is_write_call (trace (exec a w)) = filter is_write_call (trace w).
Proof.
  intros H Ha. destruct a as [| | | | | | ev |]; try discriminate; simpl.
  - open_world w; unfold_ops; simpl. destruct rp; simpl; trace_fin.
  - unfold readPump_step. destruct (rpc w); auto.
    destruct ev as [appData | message | err].
    + open_world w; unfold_ops; simpl. destruct ph; simpl; trace_fin.
    + open_world w; unfold_ops; simpl. destruct hd; simpl; trace_fin.
    + unfold bind, readPump_return, bind, goto_r.
      set (u := IsUnexpectedCloseError err [CloseGoingAway; CloseAbnormalClosure]).
      set (w1 := if u then log (EvLogPrintf err) w else w).
      assert (E1 : (if u then emit (EvLogPrintf err) else ret tt) w = Ret tt w1)
        by (subst w1; destruct u; reflexivity).
      assert (H1 : Inv w1).
      { subst w1. destruct u; [|assumption].
        clear E1. open_world w. open_inv H. inv_goal. }
      assert (T1 : filter is_write_call (trace w1) = filter is_write_call (trace w)).
      { subst w1. destruct u; [|reflexivity]. trace_fin. }
      rewrite E1. rewrite <- T1.
      pose proof (@Close_calls w1 is_write_call H1 eq_refl eq_refl eq_refl) as E.
      destruct (Close w1); exact E.
Qed.

(** X8. Each direction of the transport has one user.  The calls of the
    write side (write deadline, frames, writers) are made by steps of the
    outbound pump only, and the calls of the read side (read limit, read
    deadline, pong handler) by the inbound pump only: no call of [Close],
    [IsClosed] or [SendBinary] and no step of the other pump adds one. *)
Theorem transport_discipline (a : Action) (w : World) :
  reachable w ->
  (is_write_step a = false ->
   filter is_write_call (trace (exec a w)) = filter is_write_call (trace w)) /\
  (is_read_step a = false ->
   filter is_read_call (trace (exec a w)) = filter is_read_call (trace w)).
Proof.
  intros Hr. apply reachable_Inv in Hr. split; intros Ha.
  - destruct (is_read_step a) eqn:Hb.
    + now apply readPump_write_calls.
    + now apply facade_calls.
  - destruct (is_write_step a) eqn:Hb.
    + destruct a; try discriminate. apply writePump_step_read_calls.
    + now apply facade_calls.
Qed.

Lemma transport_discipline_witness :
  reachable (run [EnterWritePump; EnterReadPump; CallSendBinary 0 [x01]] fresh) /\
  filter is_write_call
    (trace (exec (StepReadPump (InError (CloseError 1000 "bye")))
              (run [EnterWritePump; EnterReadPump; CallSendBinary 0 [x01]] fresh))) = [].
Proof.
  assert (Hr : reachable (run [EnterWritePump; EnterReadPump; CallSendBinary 0 [x01]] fresh))
    by (apply reachable_run, reachable_fresh).
  split; [exact Hr|].
  exact (proj1 (@transport_discipline (StepReadPump (InError (CloseError 1000 "bye"))) _ Hr)
           eq_refl).
Defined.

(** ** [Upgrade] on a failed handshake *)

(** X9. [Upgrade] returns an error exactly when the handshake of the
    upgrader fails, and the error is the handshake's: then no connection is
    built and no pump runs, whatever the scripts; and a handshake that
    succeeds never makes [Upgrade] return an error. *)
Theorem Upgrade_error_iff (r : Request) (handshake : Conn + error)
    (h : option MessageHandler) (t0 : Z)
    (wscript : list (Env + nat * bool)) (rscript : list (Env + ReadEvent)) (err : error) :
  Upgrade r handshake h t0 wscript rscript = UpgradeError err <-> handshake = inr err.
Proof.
  unfold Upgrade. cbn [Upgrader_Upgrade upgrader CheckOrigin].
  destruct handshake as [t | e].
  - split; [|discriminate].
    destruct (writePump wscript _) as [u w1 | msg w1 | w1]; try discriminate;
      destruct (readPump rscript w1); discriminate.
  - split; intros [= ->]; reflexivity.
Qed.

(** ** The inbound pump, run to its end *)

Lemma handled_app (a b : list Event) : handled (a ++ b) = handled a ++ handled b.
Proof.
  induction a as [|e a IH]; simpl; [reflexivity|].
  destruct e; simpl; now rewrite ?IH.
Qed.

Lemma readPump_error_step (err : error) (w : World) :
  Inv w -> rpc w = RLoop ->
  exists w',
    readPump_step (InError err) w = Ret tt w' /\ Inv w' /\
    rpc w' = RReturned /\ closeOnce (self w') = true /\
    handled (trace w') = handled (trace w).
Proof.
  intros H Hpc. unfold readPump_step. rewrite Hpc.
  unfold bind, readPump_return, bind, goto_r.
  set (u := IsUnexpectedCloseError err [CloseGoingAway; CloseAbnormalClosure]).
  set (w1 := if u then log (EvLogPrintf err) w else w).
  assert (E1 : (if u then emit (EvLogPrintf err) else ret tt) w = Ret tt w1)
    by (subst w1; destruct u; reflexivity).
  assert (H1 : Inv w1).
  { subst w1. destruct u; [|assumption]. clear Hpc E1.
    open_world w. open_inv H. inv_goal. }
  assert (T1 : handled (trace w1) = handled (trace w)).
  { subst w1. destruct u; [|reflexivity]. simpl.
    rewrite handled_app. simpl. now rewrite app_nil_r. }
  rewrite E1. destruct (Close_spec H1) as (w' & E & H' & Ho & _ & Et & _).
  rewrite E. eexists. split; [reflexivity|]. simpl.
  split; [clear -H' Ho; open_world w'; open_inv H'; inv_goal|].
  split; [reflexivity|]. split; [exact Ho|].
  rewrite Et, handled_app, T1.
  destruct (closeOnce (self w1)); simpl; now rewrite app_nil_r.
Qed.

Lemma readPump_loop_delivers (script : list (Env + ReadEvent)) :
  forall w, Inv w -> rpc w = RLoop ->
  let expected := match handler (self w) with
                  | Some _ => messages_before_error script
                  | None => []
                  end in
  if existsb is_read_error script
  then exists w',
         readPump_loop script w = Ret tt w' /\ rpc w' = RReturned /\
         Inv w' /\ closeOnce (self w') = true /\
         handled (trace w') = handled (trace w) ++ expected
  else exists w',
         readPump_loop script w = Block w' /\ rpc w' = RLoop /\
         handled (trace w') = handled (trace w) ++ expected.
Proof.
  induction script as [|[e | [appData | message | err]] rest IH];
    intros w H Hpc; cbv zeta; cbn [existsb is_read_error orb messages_before_error readPump_loop];
    rewrite Hpc.
  - exists w. destruct (handler (self w)); now rewrite app_nil_r.
  - assert (E : rpc (env_step e w) = RLoop /\ handler (self (env_step e w)) = handler (self w) /\
                trace (env_step e w) = trace w).
    { destruct e; simpl; auto. destruct (stopped (ticker w)); auto.
      destruct (Chan.send _ _); auto. }
    destruct E as (E1 & E2 & E3).
    specialize (IH (env_step e w) (env_step_Inv e H) E1). cbv zeta in IH.
    rewrite E2, E3 in IH. exact IH.
  - assert (E : exists w1, readPump_step (InPong appData) w = Ret tt w1 /\ Inv w1 /\
                  rpc w1 = RLoop /\ handler (self w1) = handler (self w) /\
                  handled (trace w1) = handled (trace w)).
    { pose proof (readPump_step_Inv (InPong appData) H) as H1.
      unfold readPump_step in *. rewrite Hpc in *. clear IH.
      open_world w. unfold_ops. simpl in *.
      destruct ph; simpl in *; eexists; (split; [reflexivity|]); (split; [exact H1|]);
        simpl; repeat split; auto.
      unfold log; simpl. rewrite handled_app. simpl. now rewrite app_nil_r. }
    destruct E as (w1 & Es & H1 & E1 & E2 & E3). rewrite Es.
    specialize (IH w1 H1 E1). cbv zeta in IH. rewrite E2, E3 in IH. exact IH.
  - assert (E : exists w1, readPump_step (InMessage message) w = Ret tt w1 /\ Inv w1 /\
                  rpc w1 = RLoop /\ handler (self w1) = handler (self w) /\
                  handled (trace w1) =
                  handled (trace w) ++ match handler (self w) with
                                       | Some _ => [message]
                                       | None => []
                                       end).
    { pose proof (readPump_step_Inv (InMessage message) H) as H1.
      unfold readPump_step in *. rewrite Hpc in *. clear IH.
      open_world w. unfold_ops. simpl in *.
      destruct hd; simpl in *; eexists; (split; [reflexivity|]); (split; [exact H1|]);
        simpl; repeat split; auto.
      - unfold log; simpl. now rewrite handled_app.
      - now rewrite app_nil_r. }
    destruct E as (w1 & Es & H1 & E1 & E2 & E3). rewrite Es.
    specialize (IH w1 H1 E1). cbv zeta in IH. rewrite E2, E3 in IH.
    destruct (handler (self w)); [|rewrite app_nil_r in IH; exact IH].
    rewrite <- app_assoc in IH. exact IH.
  - destruct (readPump_error_step err H Hpc) as (w1 & Es & H1 & E1 & Ho & E3).
    rewrite Es. exists w1.
    split; [destruct rest; simpl; now rewrite E1|].
    split; [exact E1|]. split; [exact H1|]. split; [exact Ho|].
    rewrite E3. destruct (handler (self w)); now rewrite app_nil_r.
Qed.

(** X10. The inbound pump, from its entry.  It goes on reading until
    [ReadMessage] returns its first error: with no error in sight it is
    still in its loop, and at the first error it returns, the connection
    closed.  Up to that point every message read is passed to the handler
    once, in the order read, pongs and the passing of time changing nothing
    to it; with a nil handler the messages are read and dropped. *)
Theorem readPump_delivers_in_order (w : World) (script : list (Env + ReadEvent)) :
  reachable w ->
  rpc w = RIdle ->
  let expected := match handler (self w) with
                  | Some _ => messages_before_error script
                  | None => []
                  end in
  if existsb is_read_error script
  then exists w',
         readPump script w = Ret tt w' /\ rpc w' = RReturned /\
         IsClosed w' = Ret true w' /\
         handled (trace w') = handled (trace w) ++ expected
  else exists w',
         readPump script w = Block w' /\ rpc w' = RLoop /\
         handled (trace w') = handled (trace w) ++ expected.
Proof.
  intros Hr Hpc. apply reachable_Inv in Hr. cbv zeta.
  unfold readPump, bind. rewrite readPump_enter_Ret.
  set (w1 := exec EnterReadPump w).
  assert (H1 : Inv w1) by now apply exec_Inv.
  assert (E : rpc w1 = RLoop /\ handler (self w1) = handler (self w) /\
              handled (trace w1) = handled (trace w)).
  { subst w1. simpl. unfold readPump_enter. rewrite Hpc.
    clear. open_world w. unfold_ops. simpl. unfold log; simpl.
    rewrite !handled_app. simpl. rewrite !app_nil_r. auto. }
  destruct E as (E1 & E2 & E3).
  pose proof (readPump_loop_delivers script H1 E1) as L. cbv zeta in L.
  rewrite E2, E3 in L.
  destruct (existsb is_read_error script).
  - destruct L as (w' & El & Er & H' & Ho & Eh).
    exists w'. split; [exact El|]. split; [exact Er|].
    split; [now apply Inv_closed_IsClosed | exact Eh].
  - exact L.
Qed.

Lemma readPump_delivers_in_order_witness :
  reachable fresh /\
  exists w',
    readPump [inr (InMessage [x01]); inl (Elapse 5); inr (InPong ""); inr (InMessage [x02]);
              inr (InError (CloseError 1001 "")); inr (InMessage [x03])] fresh = Ret tt w' /\
    rpc w' = RReturned /\
    IsClosed w' = Ret true w' /\
    handled (trace w') = [[x01]; [x02]].
Proof.
  split; [exact reachable_fresh|].
  exact (@readPump_delivers_in_order fresh
           [inr (InMessage [x01]); inl (Elapse 5); inr (InPong ""); inr (InMessage [x02]);
            inr (InError (CloseError 1001 "")); inr (InMessage [x03])]
           reachable_fresh eq_refl).
Defined.

(** ** What [Upgrade] has done when it returns *)

Lemma writePump_loop_ends (script : list (Env + nat * bool)) :
  forall w u w',
    wpc w <> WReturned ->
    writePump_loop script w = Ret u w' ->
    exists pre, trace w' = pre ++ [EvTickerStop; EvConnClose inWritePump].
Proof.
  induction script as [|[e | [pick fail]] rest IH]; intros w u w' Hn; simpl.
  - destruct (wpc w); try discriminate. congruence.
  - assert (E : wpc (env_step e w) = wpc w).
    { destruct e; simpl; auto. destruct (stopped (ticker w)); auto.
      destruct (Chan.send _ _); auto. }
    assert (G : writePump_loop rest (env_step e w) = Ret u w' ->
                exists pre, trace w' = pre ++ [EvTickerStop; EvConnClose inWritePump]).
    { apply IH. now rewrite E. }
    destruct (wpc w); auto. congruence.
  - assert (G : match writePump_step pick fail w with
                | Ret _ w1 | Block w1 => writePump_loop rest w1
                | Panic msg w1 => Panic msg w1
                end = Ret u w' ->
                exists pre, trace w' = pre ++ [EvTickerStop; EvConnClose inWritePump]).
    { pose proof (@writePump_step_returns pick fail w Hn) as R.
      destruct (writePump_step pick fail w) as [u1 w1 | msg w1 | w1] eqn:Es;
        try discriminate; simpl in R.
      - destruct (wpc w1) eqn:Hpc1.
        5: { destruct rest as [|[|[]] ?]; simpl; rewrite Hpc1; intros [= _ <-];
             now apply R. }
        all: apply IH; rewrite Hpc1; discriminate.
      - destruct (wpc w1) eqn:Hpc1.
        5: { destruct rest as [|[|[]] ?]; simpl; rewrite Hpc1; intros [= _ <-];
             now apply R. }
        all: apply IH; rewrite Hpc1; discriminate. }
    destruct (wpc w); auto. congruence.
Qed.

Lemma readPump_step_extends (ev : ReadEvent) (w : World) :
  Inv w -> exists post, trace (world_of (readPump_step ev w)) = trace w ++ post.
Proof.
  intros H. unfold readPump_step.
  destruct (rpc w) eqn:Hpc; try (exists []; simpl; now rewrite app_nil_r).
  destruct ev as [appData | message | err].
  - open_world w. unfold_ops. simpl.
    destruct ph; simpl; eexists; unfold log; simpl;
      [symmetry; apply app_nil_r | reflexivity].
  - open_world w. unfold_ops. simpl.
    destruct hd; simpl; eexists; unfold log; simpl;
      [reflexivity | symmetry; apply app_nil_r].
  - unfold bind, readPump_return, bind, goto_r.
    set (u := IsUnexpectedCloseError err [CloseGoingAway; CloseAbnormalClosure]).
    set (w1 := if u then log (EvLogPrintf err) w else w).
    assert (E1 : (if u then emit (EvLogPrintf err) else ret tt) w = Ret tt w1)
      by (subst w1; destruct u; reflexivity).
    assert (H1 : Inv w1).
    { subst w1. destruct u; [|assumption]. clear Hpc E1.
      open_world w. open_inv H. inv_goal. }
    rewrite E1. destruct (Close_spec H1) as (w' & E & _ & _ & _ & Et & _).
    rewrite E. simpl. rewrite Et. subst w1.
    destruct u; simpl; [rewrite <- app_assoc|]; eexists; reflexivity.
Qed.

Lemma readPump_loop_extends (script : list (Env + ReadEvent)) :
  forall w, Inv w ->
  exists post, trace (world_of (readPump_loop script w)) = trace w ++ post.
Proof.
  induction script as [|[e | ev] rest IH]; intros w H; simpl.
  - exists []. rewrite app_nil_r. now destruct (rpc w).
  - assert (E : trace (env_step e w) = trace w).
    { destruct e; simpl; auto. destruct (stopped (ticker w)); auto.
      destruct (Chan.send _ _); auto. }
    destruct (IH (env_step e w) (env_step_Inv e H)) as (post & Ep).
    rewrite E in Ep.
    destruct (rpc w); try (exists post; exact Ep).
    exists []. simpl. now rewrite app_nil_r.
  - assert (G : exists post,
               trace (world_of match readPump_step ev w with
                               | Ret _ w' | Block w' => readPump_loop rest w'
                               | Panic msg w' => Panic msg w'
                               end) = trace w ++ post).
    { destruct (readPump_step_extends ev H) as (p1 & E1).
      pose proof (readPump_step_Inv ev H) as H1.
      destruct (readPump_step ev w) as [u w1 | msg w1 | w1]; simpl in *.
      - destruct (IH w1 H1) as (p2 & E2). exists (p1 ++ p2).
        now rewrite E2, E1, app_assoc.
      - now exists p1.
      - destruct (IH w1 H1) as (p2 & E2). exists (p1 ++ p2).
        now rewrite E2, E1, app_assoc. }
    destruct (rpc w); auto. exists []. simpl. now rewrite app_nil_r.
Qed.

Lemma writePump_step_quiet_any (pick : nat) (fail : bool) (w : World) :
  quiet w ->
  (writePump_step pick fail w = Block w) \/
  (exists w', writePump_step pick fail w = Ret tt w' /\
              written (trace w') = written (trace w) /\
              rpc w' = RIdle /\
              (quiet w' \/ wpc w' = WReturned)).
Proof.
  intros (Hpc & Hr & Hb & Hc & Hsb & Hsc).
  remember (writePump_step pick fail w) as r eqn:Er.
  unfold writePump_step in Er. rewrite Hpc in Er.
  unfold Chan.recv_ready at 1 3 in Er. rewrite Hb, Hc, Hsb, Hsc in Er.
  destruct (select pick _) as [[|[|[|i]]]|] eqn:Hsel;
    try (apply select_Some_ready in Hsel; simpl in Hsel; try discriminate Hsel).
  - right. open_world w. unfold_ops. unfold quiet. simpl in *. subst.
    destruct tb as [|k q]; simpl; [destruct tcl; simpl|];
      try discriminate Hsel; destruct fail; simpl;
      (eexists; split; [reflexivity|]); unfold log; simpl;
      rewrite ?written_app; simpl; rewrite ?app_nil_r; (split; [reflexivity|]);
      (split; [reflexivity|]); auto 10.
  - now destruct i.
  - left. exact Er.
Qed.

Lemma writePump_loop_writes_nothing (script : list (Env + nat * bool)) :
  forall w u w',
    quiet w -> written (trace w) = [] ->
    writePump_loop script w = Ret u w' -> written (trace w') = [] /\ rpc w' = RIdle.
Proof.
  induction script as [|[e | [pick fail]] rest IH]; intros w u w' Q Hw; simpl;
    pose proof Q as (Hpc & _); rewrite Hpc.
  - discriminate.
  - apply IH; [now apply env_step_quiet|].
    destruct e; simpl; auto. destruct (stopped (ticker w)); auto.
    destruct (Chan.send _ _); auto.
  - destruct (writePump_step_quiet_any pick fail Q)
      as [E | (w1 & E & Ew & Er & [Q1 | Hret])]; rewrite E.
    + now apply IH.
    + apply IH; [exact Q1 | congruence].
    + destruct rest as [|[|[]] ?]; simpl; rewrite Hret; intros [= _ <-];
        split; congruence.
Qed.

(** X11. What a connection returned by [Upgrade] has been through.  The
    outbound pump ran first and alone, so it never wrote a message: nothing
    was handed to [w.Write].  It ended by stopping its ticker and closing
    the transport, and only after that did the inbound pump set its read
    limit, its read deadline and its pong handler: the inbound pump of such
    a connection only ever reads from a transport that is already
    closed. *)
Theorem Upgrade_reads_after_transport_closed (r : Request) (t : Conn)
    (h : option MessageHandler) (t0 : Z)
    (wscript : list (Env + nat * bool)) (rscript : list (Env + ReadEvent)) (w : World) :
  Upgrade r (inl t) h t0 wscript rscript = UpgradeReturned w ->
  written (trace w) = [] /\
  exists pre d post,
    trace w = pre ++
              [EvTickerStop; EvConnClose inWritePump;
               EvSetReadLimit maxMessageSize; EvSetReadDeadline d; EvSetPongHandler] ++
              post.
Proof.
  unfold Upgrade. cbn [Upgrader_Upgrade upgrader CheckOrigin].
  set (w0 := world0 (newConnection t h) t0).
  assert (H0 : Inv w0) by apply Inv_world0.
  unfold writePump, bind. rewrite writePump_enter_Ret.
  set (w0' := exec EnterWritePump w0).
  assert (H0' : Inv w0') by now apply exec_Inv.
  assert (Q : quiet w0') by (unfold quiet; simpl; auto 10).
  destruct (writePump_loop wscript w0') as [u w1 | msg w1 | w1] eqn:Ew;
    [ | destruct (readPump rscript w1); discriminate | discriminate ].
  pose proof (writePump_loop_Ret _ _ Ew) as Hw1.
  destruct (writePump_loop_run wscript w0') as (acts1 & E1).
  rewrite Ew in E1. simpl in E1.
  assert (H1 : Inv w1) by (rewrite E1; now apply run_Inv).
  destruct (writePump_loop_writes_nothing wscript Q eq_refl Ew) as (Wr1 & Hr1).
  destruct (@writePump_loop_ends wscript w0' u w1) as (pre & Tr1);
    [discriminate | exact Ew |].
  unfold readPump, bind. rewrite readPump_enter_Ret.
  set (w1' := exec EnterReadPump w1).
  assert (H1' : Inv w1') by now apply exec_Inv.
  assert (Tr1' : trace w1' = trace w1 ++ [EvSetReadLimit maxMessageSize;
                                          EvSetReadDeadline (now w1 + pongWait);
                                          EvSetPongHandler]).
  { subst w1'. simpl. unfold readPump_enter. rewrite Hr1.
    clear. open_world w1. unfold_ops. simpl. unfold log; simpl.
    now rewrite <- !app_assoc. }
  destruct (readPump_loop_extends rscript H1') as (post & Tr2).
  destruct (readPump_loop_run rscript w1') as (acts2 & E2).
  destruct (readPump_loop rscript w1') as [u2 w2 | msg w2 | w2] eqn:Er;
    try discriminate.
  intros [= <-]. simpl in Tr2, E2.
  split.
  - assert (E3 : w2 = run (EnterReadPump :: acts2) w1) by (rewrite run_cons; exact E2).
    rewrite E3.
    destruct (@run_wpc_returned (EnterReadPump :: acts2) w1 H1 Hw1) as (_ & Ew2).
    now rewrite Ew2.
  - exists pre, (now w1 + pongWait)%Z, post.
    rewrite Tr2, Tr1', Tr1, <- !app_assoc. reflexivity.
Qed.

Lemma Upgrade_reads_after_transport_closed_witness :
  exists w,
    Upgrade (mkRequest "http://a.example" "game.example") (inl conn0) (Some appHandler) 0
      [inl Tick; inr (0, true)]
      [inr (InError (TransportError "use of closed network connection"))]
    = UpgradeReturned w /\
    written (trace w) = [] /\
    trace w = [EvSetWriteDeadline 5000000000; EvWriteMessage 9 [];
               EvTickerStop; EvConnClose inWritePump;
               EvSetReadLimit 8192; EvSetReadDeadline 10000000000; EvSetPongHandler;
               EvCloseSignal; EvCloseQueue; EvConnClose inClose].
Proof.
  eexists. split; [vm_compute; reflexivity|].
  split; [|reflexivity].
  apply (@Upgrade_reads_after_transport_closed
           (mkRequest "http://a.example" "game.example") conn0 (Some appHandler) 0
           [inl Tick; inr (0, true)]
           [inr (InError (TransportError "use of closed network connection"))]).
  vm_compute; reflexivity.
Defined.

(** ** More on [Close] and on the select of the outbound pump *)

(** X12. What the first [Close] does.  On an open connection it closes the
    signal, then the queue, then the transport, in this order, and calls
    nothing else: the messages still queued are neither written nor
    dropped, and the pumps are where they were. *)
Theorem Close_teardown_order (w : World) :
  reachable w ->
  IsClosed w = Ret false w ->
  exists w',
    Close w = Ret tt w' /\
    trace w' = trace w ++ [EvCloseSignal; EvCloseQueue; EvConnClose inClose] /\
    Chan.buf (send (self w')) = Chan.buf (send (self w)) /\
    Chan.closed (send (self w')) = true /\
    conn (self w') = conn (self w) /\
    wpc w' = wpc w /\ rpc w' = rpc w /\
    IsClosed w' = Ret true w'.
Proof.
  intros Hr Hopen. apply reachable_Inv in Hr.
  rewrite IsClosed_spec in Hopen by assumption.
  assert (Ho : closeOnce (self w) = false) by (rewrite <- (inv_signal Hr); congruence).
  destruct (Close_spec Hr) as (w' & E & H' & Ho' & Hc' & Et & Eb & Ec & Ew & Er & _).
  exists w'. rewrite Ho in Et.
  repeat (split; [assumption|]).
  split; [now rewrite (inv_queue H')|].
  repeat (split; [assumption|]).
  now apply Inv_closed_IsClosed.
Qed.

Lemma Close_teardown_order_witness :
  reachable (run [CallSendBinary 0 [x01]] fresh) /\
  exists w',
    Close (run [CallSendBinary 0 [x01]] fresh) = Ret tt w' /\
    trace w' = [EvCloseSignal; EvCloseQueue; EvConnClose inClose] /\
    Chan.buf (send (self w')) = [[x01]].
Proof.
  assert (Hr : reachable (run [CallSendBinary 0 [x01]] fresh))
    by (apply reachable_run, reachable_fresh).
  split; [exact Hr|].
  destruct (@Close_teardown_order _ Hr eq_refl) as (w' & E & Et & Eb & _).
  exists w'. split; [exact E|]. split; [exact Et | exact Eb].
Defined.

(** X13. Heartbeats and messages are not ordered by the select.  With a
    message queued and a tick pending on an open connection, both cases can
    proceed and the poll order decides: polled first, the ticker case
    writes a ping and leaves the message queued; polled first, the queue
    case takes the message and leaves the tick pending. *)
Theorem writePump_tick_or_message (w : World) (m : bytes) (q : list bytes)
    (k : Z) (ks : list Z) :
  reachable w ->
  wpc w = WSelect ->
  IsClosed w = Ret false w ->
  Chan.buf (send (self w)) = m :: q ->
  Chan.buf (C (ticker w)) = k :: ks ->
  (exists w',
     writePump_step 1 false w = Ret tt w' /\
     trace w' = trace w ++ [EvSetWriteDeadline (now w + writeWait);
                            EvWriteMessage PingMessage []] /\
     Chan.buf (send (self w')) = m :: q /\ wpc w' = WSelect) /\
  (exists w',
     writePump_step 0 false w = Ret tt w' /\
     trace w' = trace w ++ [EvSetWriteDeadline (now w + writeWait);
                            EvNextWriter BinaryMessage; EvWrite m] /\
     Chan.buf (send (self w')) = q /\
     Chan.buf (C (ticker w')) = k :: ks /\ wpc w' = WLen).
Proof.
  intros Hr Hpc Hopen Hb Hk. apply reachable_Inv in Hr.
  rewrite IsClosed_spec in Hopen by assumption.
  assert (Hc : Chan.closed (closed (self w)) = false) by congruence. clear Hopen.
  pose proof (inv_signal_empty Hr) as He.
  assert (S1 : select 1 [Chan.recv_ready (send (self w)); Chan.recv_ready (C (ticker w));
                         Chan.recv_ready (closed (self w))] = Some 1).
  { unfold Chan.recv_ready. now rewrite Hb, Hk, He, Hc. }
  assert (S0 : select 0 [Chan.recv_ready (send (self w)); Chan.recv_ready (C (ticker w));
                         Chan.recv_ready (closed (self w))] = Some 0).
  { unfold Chan.recv_ready. now rewrite Hb, Hk, He, Hc. }
  unfold writePump_step. rewrite Hpc, S1, S0. clear S1 S0 Hr.
  open_world w. unfold_ops. simpl in *. subst. simpl.
  split; eexists; (split; [reflexivity|]); unfold log; simpl;
    rewrite <- ?app_assoc; simpl; auto.
Qed.

Lemma writePump_tick_or_message_witness :
  reachable (run [EnterWritePump; CallSendBinary 0 [x01]; EnvStep Tick] fresh) /\
  (exists w',
     writePump_step 1 false (run [EnterWritePump; CallSendBinary 0 [x01]; EnvStep Tick] fresh)
       = Ret tt w' /\
     trace w' = [EvSetWriteDeadline 5000000000; EvWriteMessage 9 []]) /\
  (exists w',
     writePump_step 0 false (run [EnterWritePump; CallSendBinary 0 [x01]; EnvStep Tick] fresh)
       = Ret tt w' /\
     trace w' = [EvSetWriteDeadline 5000000000; EvNextWriter 2; EvWrite [x01]]).
Proof.
  assert (Hr : reachable (run [EnterWritePump; CallSendBinary 0 [x01]; EnvStep Tick] fresh))
    by (apply reachable_run, reachable_fresh).
  split; [exact Hr|].
  destruct (@writePump_tick_or_message _ [x01] [] 0%Z [] Hr)
    as ((w1 & E1 & T1 & _) & (w2 & E2 & T2 & _)); try reflexivity.
  split; [exists w1 | exists w2]; split; assumption.
Defined.


